(** * ROSE binary analysis: Partitioner2::Function and the Disassembler engine

    A shallow embedding of [rose::BinaryAnalysis::Partitioner2::Function]
    (Function.h) and of the architecture-independent part of
    [rose::BinaryAnalysis::Disassembler] (Disassembler.h), with the
    properties their specification states about them. *)

From Stdlib Require Import ZArith NArith String List Lia.
From stdpp Require Import base gmap sets list strings sorting.

Local Open Scope N_scope.

(** rose_addr_t is a 64-bit unsigned integer. *)
Abbreviation rose_addr_t := N (only parsing).

(** ** Method outcomes

    A C++ method either returns or ends the process through a failed
    assertion.  A method is a function from the object before the call to an
    outcome and the object as the call leaves it, so that what an aborted call
    did to the object before it aborted stays visible. *)

Inductive outcome (A : Type) : Type :=
| Returns (a : A)
| Aborts (msg : string).
Arguments Returns {A} a.
Arguments Aborts {A} msg.

Definition method (S A : Type) : Type := S -> outcome A * S.

#[global] Instance method_ret {S} : MRet (method S) :=
  fun A (a : A) s => (Returns a, s).

#[global] Instance method_bind {S} : MBind (method S) :=
  fun A B (k : A -> method S B) (m : method S A) s =>
    match m s with
    | (Returns a, s') => k a s'
    | (Aborts msg, s') => (Aborts msg, s')
    end.

Definition get {S A} (proj : S -> A) : method S A := fun s => (Returns (proj s), s).

Definition modify {S} (upd : S -> S) : method S unit := fun s => (Returns tt, upd s).

Definition aborted {A} (o : outcome A) : bool :=
  match o with Aborts _ => true | Returns _ => false end.

(** Modelled from the spec: the Sawyer assertion macros [ASSERT_forbid] and
    [ASSERT_forbid2] are not part of the sources at hand.  The specification
    describes them as a runtime precondition check that fails fast and is
    fatal: when the forbidden condition holds the call ends there, otherwise
    the check does nothing. *)
Definition ASSERT_forbid2 {S} (cond : bool) (msg : string) : method S unit :=
  fun s => if cond then (Aborts msg, s) else (Returns tt, s).

Definition ASSERT_forbid {S} (cond : bool) : method S unit :=
  ASSERT_forbid2 cond "assertion failed".

(** ** Partitioner2::DataBlock *)

(** Modelled from the spec: DataBlock.h is not part of the sources at hand.
    A data block has a base virtual address and a size; a [DataBlock::Ptr] is
    a shared pointer, null or pointing to one heap object, and two pointers
    are equal when they point to the same object. *)
Record DataBlock : Type := mkDataBlock {
  db_object : N;          (* identity of the heap object *)
  db_address : rose_addr_t;
  db_size : N
}.

#[global] Instance DataBlock_eq_dec : EqDecision DataBlock.
Proof. solve_decision. Defined.

Definition DataBlockPtr : Type := option DataBlock.

(** ** Partitioner2::Function *)

Section FunctionModel.

(** The analysis result types come from headers that are not part of the
    sources at hand; the function only stores them. *)
Context {CCAnalysis SDAnalysis SValue : Type}.
Context (ccAnalysis_default : CCAnalysis) (stackDeltaAnalysis_default : SDAnalysis).

Record Function : Type := mkFunction {
  entryVa_ : rose_addr_t;
  name_ : string;
  comment_ : string;
  reasons_ : N;                        (* unsigned, 32 bits *)
  bblockVas_ : gset N;                 (* std::set<rose_addr_t> *)
  dblocks_ : list DataBlock;           (* non-null pointers, sorted by address *)
  isFrozen_ : bool;
  ccAnalysis_ : CCAnalysis;
  stackDeltaAnalysis_ : SDAnalysis;
  stackDeltaOverride_ : option SValue; (* null or a value *)
  isNoop_ : option bool                (* Sawyer::Cached<bool> *)
}.

Definition set_name_ (v : string) (f : Function) : Function :=
  mkFunction (entryVa_ f) v (comment_ f) (reasons_ f) (bblockVas_ f) (dblocks_ f)
    (isFrozen_ f) (ccAnalysis_ f) (stackDeltaAnalysis_ f) (stackDeltaOverride_ f) (isNoop_ f).
Definition set_comment_ (v : string) (f : Function) : Function :=
  mkFunction (entryVa_ f) (name_ f) v (reasons_ f) (bblockVas_ f) (dblocks_ f)
    (isFrozen_ f) (ccAnalysis_ f) (stackDeltaAnalysis_ f) (stackDeltaOverride_ f) (isNoop_ f).
Definition set_reasons_ (v : N) (f : Function) : Function :=
  mkFunction (entryVa_ f) (name_ f) (comment_ f) v (bblockVas_ f) (dblocks_ f)
    (isFrozen_ f) (ccAnalysis_ f) (stackDeltaAnalysis_ f) (stackDeltaOverride_ f) (isNoop_ f).
Definition set_bblockVas_ (v : gset N) (f : Function) : Function :=
  mkFunction (entryVa_ f) (name_ f) (comment_ f) (reasons_ f) v (dblocks_ f)
    (isFrozen_ f) (ccAnalysis_ f) (stackDeltaAnalysis_ f) (stackDeltaOverride_ f) (isNoop_ f).
Definition set_dblocks_ (v : list DataBlock) (f : Function) : Function :=
  mkFunction (entryVa_ f) (name_ f) (comment_ f) (reasons_ f) (bblockVas_ f) v
    (isFrozen_ f) (ccAnalysis_ f) (stackDeltaAnalysis_ f) (stackDeltaOverride_ f) (isNoop_ f).
Definition set_isFrozen_ (v : bool) (f : Function) : Function :=
  mkFunction (entryVa_ f) (name_ f) (comment_ f) (reasons_ f) (bblockVas_ f) (dblocks_ f)
    v (ccAnalysis_ f) (stackDeltaAnalysis_ f) (stackDeltaOverride_ f) (isNoop_ f).
Definition set_isNoop_ (v : option bool) (f : Function) : Function :=
  mkFunction (entryVa_ f) (name_ f) (comment_ f) (reasons_ f) (bblockVas_ f) (dblocks_ f)
    (isFrozen_ f) (ccAnalysis_ f) (stackDeltaAnalysis_ f) (stackDeltaOverride_ f) v.

(** [void clearCache() { isNoop_.clear(); }] *)
Definition clearCache : method Function unit := modify (set_isNoop_ None).

(** [explicit Function(rose_addr_t entryVa, const std::string &name, unsigned reasons)]
    followed by [bblockVas_.insert(entryVa)]. *)
Definition Function_ctor (entryVa : rose_addr_t) (name : string) (reasons : N) : Function :=
  let this := mkFunction entryVa name EmptyString reasons ∅ []
                false ccAnalysis_default stackDeltaAnalysis_default None None in
  set_bblockVas_ ({[ entryVa ]} ∪ bblockVas_ this) this.

(** [static Ptr instance(rose_addr_t entryVa, const std::string &name="", unsigned reasons=0)] *)
Definition instance (entryVa : rose_addr_t) (name : string) (reasons : N) : Function :=
  Function_ctor entryVa name reasons.

(** [static Ptr instance(rose_addr_t entryVa, unsigned reasons)] *)
Definition instance_reasons (entryVa : rose_addr_t) (reasons : N) : Function :=
  Function_ctor entryVa EmptyString reasons.

(** Accessors. *)
Definition address (f : Function) : rose_addr_t := entryVa_ f.
Definition name (f : Function) : string := name_ f.
Definition comment (f : Function) : string := comment_ f.
Definition reasons (f : Function) : N := reasons_ f.
Definition basicBlockAddresses (f : Function) : gset N := bblockVas_ f.
Definition dataBlocks (f : Function) : list DataBlock := dblocks_ f.
Definition isFrozen (f : Function) : bool := isFrozen_ f.
Definition isNoop (f : Function) : option bool := isNoop_ f.
Definition nBasicBlocks (f : Function) : nat := size (bblockVas_ f).

(** [bool ownsBasicBlock(rose_addr_t bblockVa) const] *)
Definition ownsBasicBlock (f : Function) (bblockVa : rose_addr_t) : bool :=
  bool_decide (bblockVa ∈ bblockVas_ f).

(** Setters of the non-structural fields. *)
Definition name_set (s : string) : method Function unit := modify (set_name_ s).
Definition comment_set (s : string) : method Function unit := modify (set_comment_ s).
Definition reasons_set (r : N) : method Function unit := modify (set_reasons_ r).
(** [reasons_ |= reasons] *)
Definition insertReasons (r : N) : method Function unit :=
  modify (fun f => set_reasons_ (N.lor (reasons_ f) r) f).
(** [reasons_ &= ~reasons], the complement taken on 32 bits. *)
Definition eraseReasons (r : N) : method Function unit :=
  modify (fun f => set_reasons_ (N.land (reasons_ f) (N.lnot r 32)) f).

(** [bool insertBasicBlock(rose_addr_t bblockVa)] *)
Definition insertBasicBlock (bblockVa : rose_addr_t) : method Function bool :=
  frozen ← get isFrozen_;
  ASSERT_forbid frozen;;
  owned ← get (fun f => bool_decide (bblockVa ∈ bblockVas_ f));
  modify (fun f => set_bblockVas_ ({[ bblockVa ]} ∪ bblockVas_ f) f);;
  let wasInserted := negb owned in
  (if wasInserted then clearCache else mret tt);;
  mret wasInserted.

(** [void eraseBasicBlock(rose_addr_t bblockVa)] *)
Definition eraseBasicBlock (bblockVa : rose_addr_t) : method Function unit :=
  frozen ← get isFrozen_;
  ASSERT_forbid frozen;;
  entryVa ← get entryVa_;
  ASSERT_forbid2 (bblockVa =? entryVa) "function entry block cannot be removed";;
  clearCache;;
  modify (fun f => set_bblockVas_ (bblockVas_ f ∖ {[ bblockVa ]}) f).

(** [void freeze()] and [void thaw()], private and used by the Partitioner. *)
Definition freeze : method Function unit := modify (set_isFrozen_ true).
Definition thaw : method Function unit := modify (set_isFrozen_ false).

(** Modelled from the spec: the data block list is kept sorted by starting
    address. *)
Fixpoint insertSorted (db : DataBlock) (l : list DataBlock) : list DataBlock :=
  match l with
  | [] => [db]
  | x :: l' => if db_address db <? db_address x then db :: x :: l'
               else x :: insertSorted db l'
  end.

(** Modelled from the spec: the data block list without a block. *)
Fixpoint removeBlock (db : DataBlock) (l : list DataBlock) : list DataBlock :=
  match l with
  | [] => []
  | x :: l' => if decide (x = db) then l' else x :: removeBlock db l'
  end.

(** Modelled from the spec: [insertDataBlock] is declared in Function.h and
    its body is not part of the sources at hand.  The specification gives it
    the contract of [insertBasicBlock] over the sorted data block list: it
    fails fast on a frozen function, the pointer must be non-null, a block
    already owned by this function is left alone and the result is false,
    otherwise the block is added, the cached properties are invalidated and
    the result is true. *)
Definition insertDataBlock (dblock : DataBlockPtr) : method Function bool :=
  frozen ← get isFrozen_;
  ASSERT_forbid frozen;;
  match dblock with
  | None =>
      ASSERT_forbid2 true "data block pointer must be non-null";;
      mret false
  | Some db =>
      owned ← get (fun f => bool_decide (db ∈ dblocks_ f));
      if owned : bool then mret false
      else
        modify (fun f => set_dblocks_ (insertSorted db (dblocks_ f)) f);;
        clearCache;;
        mret true
  end.

(** Modelled from the spec: [eraseDataBlock] is declared in Function.h and
    its body is not part of the sources at hand.  It fails fast on a frozen
    function; a null pointer or a block this function does not own makes the
    call a no-op; otherwise the block is removed and the cached properties
    are invalidated. *)
Definition eraseDataBlock (dblock : DataBlockPtr) : method Function unit :=
  frozen ← get isFrozen_;
  ASSERT_forbid frozen;;
  match dblock with
  | None => mret tt
  | Some db =>
      owned ← get (fun f => bool_decide (db ∈ dblocks_ f));
      if owned : bool then
        modify (fun f => set_dblocks_ (removeBlock db (dblocks_ f)) f);;
        clearCache
      else mret tt
  end.

(** The no-op analysis stores its result through the [isNoop()] accessor,
    whose [Sawyer::Cached] value is writable through a const reference. *)
Definition isNoop_store (b : bool) : method Function unit := modify (set_isNoop_ (Some b)).

(** Calls a client can make on a function object, and a sequence of them run
    until the first one that aborts. *)
Inductive call : Type :=
| CallInsertBasicBlock (va : rose_addr_t)
| CallEraseBasicBlock (va : rose_addr_t)
| CallInsertDataBlock (p : DataBlockPtr)
| CallEraseDataBlock (p : DataBlockPtr)
| CallName (s : string)
| CallComment (s : string)
| CallReasons (r : N)
| CallInsertReasons (r : N)
| CallEraseReasons (r : N)
| CallIsNoopStore (b : bool)
| CallFreeze
| CallThaw.

Definition perform (c : call) : method Function unit :=
  match c with
  | CallInsertBasicBlock va => insertBasicBlock va;; mret tt
  | CallEraseBasicBlock va => eraseBasicBlock va
  | CallInsertDataBlock p => insertDataBlock p;; mret tt
  | CallEraseDataBlock p => eraseDataBlock p
  | CallName s => name_set s
  | CallComment s => comment_set s
  | CallReasons r => reasons_set r
  | CallInsertReasons r => insertReasons r
  | CallEraseReasons r => eraseReasons r
  | CallIsNoopStore b => isNoop_store b
  | CallFreeze => freeze
  | CallThaw => thaw
  end.

Fixpoint run (cs : list call) : method Function unit :=
  match cs with
  | [] => mret tt
  | c :: cs' => perform c;; run cs'
  end.

(** The entry address is one of the basic block addresses. *)
Definition entry_owned (f : Function) : Prop := address f ∈ basicBlockAddresses f.

End FunctionModel.

Arguments Function : clear implicits.


(* ===================================================================== *)
(** * Disassembler *)

Definition wrap64 (x : N) : N := x mod 2 ^ 64.

(** [typedef std::set<rose_addr_t> AddressSet] *)
Abbreviation AddressSet := (gset N) (only parsing).

(** Modelled from the spec: SgAsmInstruction is declared in headers that are
    not part of the sources at hand.  The specification describes a decoded
    instruction as an immutable record of its starting virtual address, its
    byte length, an architecture-specific opcode and operand representation,
    and the set of its statically known successor addresses; the immediate
    operand values are what the immediate-operand scan reads.  Of the opcode
    the engine needs one thing, whether the instruction is a branch: the
    comment of disassembleBlock in Disassembler.h ends a basic block at "a
    branch instruction (e.g., jmp, je, call, ret, etc.)". *)
Record SgAsmInstruction : Type := mkInsn {
  insn_address : rose_addr_t;
  insn_size : N;
  insn_mnemonic : string;
  insn_is_branch : bool;
  insn_immediates : list N;
  insn_successors : gset N
}.

(** ** Disassembler::Exception *)

Record Exception : Type := mkException {
  reason : string;
  ip : rose_addr_t;             (* zero if no associated instruction *)
  bytes : list N;               (* SgUnsignedCharList *)
  bit : N;
  insn : option SgAsmInstruction
}.

(** A bare exception not bound to any particular instruction. *)
Definition Exception_bare (reason : string) : Exception :=
  mkException reason 0 [] 0 None.
(** An exception bound to a virtual address but no raw data or instruction. *)
Definition Exception_at (reason : string) (ip : rose_addr_t) : Exception :=
  mkException reason ip [] 0 None.
(** An exception bound to a particular instruction being disassembled. *)
Definition Exception_bytes (reason : string) (ip : rose_addr_t) (raw_data : list N) (bit : N)
    : Exception :=
  mkException reason ip raw_data bit None.
(** An exception bound to a particular instruction being assembled. *)
Definition Exception_insn (reason : string) (i : SgAsmInstruction) : Exception :=
  mkException reason (insn_address i) [] 0 (Some i).

(** A call that either returns a value or throws. *)
Inductive thrown (A : Type) : Type :=
| Ok (a : A)
| Throws (e : Exception).
Arguments Ok {A} a.
Arguments Throws {A} e.

(** ** enum SearchHeuristic *)

Definition SEARCH_FOLLOWING : N := 0x0001.
Definition SEARCH_IMMEDIATE : N := 0x0002.
Definition SEARCH_WORDS     : N := 0x0004.
Definition SEARCH_ALLBYTES  : N := 0x0008.
Definition SEARCH_UNUSED    : N := 0x0010.
Definition SEARCH_NONEXE    : N := 0x0020.
Definition SEARCH_DEADEND   : N := 0x0040.
Definition SEARCH_UNKNOWN   : N := 0x0080.
Definition SEARCH_FUNCSYMS  : N := 0x0100.
Definition SEARCH_DEFAULT   : N := 0x0101.

(** [p_search & bits], as a condition. *)
Definition has_bits (mask bits : N) : bool := negb (N.land mask bits =? 0).

(** ** Memory map *)

(** Modelled from the spec: MemoryMap.h is not part of the sources at hand.
    The specification describes a memory map as byte ranges, each with a
    virtual address range and protection bits. *)
Record Segment : Type := mkSegment {
  seg_va : rose_addr_t;
  seg_bytes : list N;
  seg_prot : N
}.

Definition MemoryMap : Type := list Segment.

(** Modelled from the spec: a byte can be read at an address when a range
    holds that address and carries all the required protection bits. *)
Definition seg_byte (required : N) (va : rose_addr_t) (sg : Segment) : option N :=
  if (seg_va sg <=? va) && (N.land (seg_prot sg) required =? required)
  then seg_bytes sg !! N.to_nat (va - seg_va sg)
  else None.

Fixpoint map_byte (map : MemoryMap) (required : N) (va : rose_addr_t) : option N :=
  match map with
  | [] => None
  | sg :: map' =>
      match seg_byte required va sg with
      | Some b => Some b
      | None => map_byte map' required va
      end
  end.

(** Modelled from the spec: [MemoryMap::exists], whether a byte can be read
    at a 64-bit address. *)
Definition map_exists (map : MemoryMap) (required : N) (va : rose_addr_t) : bool :=
  (va <? 2 ^ 64) && bool_decide (is_Some (map_byte map required va)).

(** Modelled from the spec: all addresses of the map that can be read with
    the required protection, from low to high. *)
Definition seg_addresses (sg : Segment) : list N :=
  map (fun k => seg_va sg + N.of_nat k) (seq 0 (length (seg_bytes sg))).

Definition map_addresses (map : MemoryMap) (required : N) : list N :=
  merge_sort N.le
    (filter (fun va => map_exists map required va = true)
       (remove_dups (concat (List.map seg_addresses map)))).

(** ** The disassembler object *)

Inductive Endianness : Type := ORDER_UNSPECIFIED | ORDER_LSB | ORDER_MSB.

Record Disassembler : Type := mkDisassembler {
  p_registers : option N;        (* const RegisterDictionary *, null or an object *)
  p_partitioner : option N;      (* Partitioner *, null or an object *)
  p_search : N;                  (* unsigned *)
  p_wordsize : N;
  p_sex : Endianness;
  p_alignment : N;
  p_ndisassembled : N;           (* size_t *)
  p_protection : N               (* unsigned *)
}.

Definition set_p_search (v : N) (d : Disassembler) : Disassembler :=
  mkDisassembler (p_registers d) (p_partitioner d) v (p_wordsize d) (p_sex d)
    (p_alignment d) (p_ndisassembled d) (p_protection d).
Definition set_p_ndisassembled (v : N) (d : Disassembler) : Disassembler :=
  mkDisassembler (p_registers d) (p_partitioner d) (p_search d) (p_wordsize d) (p_sex d)
    (p_alignment d) v (p_protection d).
Definition set_p_protection (v : N) (d : Disassembler) : Disassembler :=
  mkDisassembler (p_registers d) (p_partitioner d) (p_search d) (p_wordsize d) (p_sex d)
    (p_alignment d) (p_ndisassembled d) v.
Definition set_p_sex (v : Endianness) (d : Disassembler) : Disassembler :=
  mkDisassembler (p_registers d) (p_partitioner d) (p_search d) (p_wordsize d) v
    (p_alignment d) (p_ndisassembled d) (p_protection d).
Definition set_p_registers (v : option N) (d : Disassembler) : Disassembler :=
  mkDisassembler v (p_partitioner d) (p_search d) (p_wordsize d) (p_sex d)
    (p_alignment d) (p_ndisassembled d) (p_protection d).
Definition set_p_partitioner (v : option N) (d : Disassembler) : Disassembler :=
  mkDisassembler (p_registers d) v (p_search d) (p_wordsize d) (p_sex d)
    (p_alignment d) (p_ndisassembled d) (p_protection d).

(** Modelled from the spec: [ctor()] is declared in Disassembler.h ("called
    only during construction") and its body is not part of the sources at
    hand.  The specification gives a new disassembler the default heuristic
    set, so [ctor] leaves the members as the initialiser list set them. *)
Definition ctor (d : Disassembler) : Disassembler := d.

(** [Disassembler()], with [MemoryMap::EXECUTABLE] a constant of the missing
    MemoryMap.h. *)
Definition Disassembler_ctor (MemoryMap_EXECUTABLE : N) : Disassembler :=
  ctor (mkDisassembler None None SEARCH_DEFAULT 4 ORDER_LSB 4 0 MemoryMap_EXECUTABLE).

Definition set_registers (rdict : option N) (d : Disassembler) : Disassembler :=
  set_p_registers rdict d.
Definition get_registers (d : Disassembler) : option N := p_registers d.
Definition set_partitioner (p : option N) (d : Disassembler) : Disassembler :=
  set_p_partitioner p d.
Definition get_partitioner (d : Disassembler) : option N := p_partitioner d.
Definition set_sex (sex : Endianness) (d : Disassembler) : Disassembler := set_p_sex sex d.
Definition set_search (bits : N) (d : Disassembler) : Disassembler := set_p_search bits d.
Definition get_search (d : Disassembler) : N := p_search d.
Definition get_wordsize (d : Disassembler) : N := p_wordsize d.
Definition get_alignment (d : Disassembler) : N := p_alignment d.
Definition get_sex (d : Disassembler) : Endianness := p_sex d.
Definition get_ndisassembled (d : Disassembler) : N := p_ndisassembled d.
Definition set_protection (bitvec : N) (d : Disassembler) : Disassembler := set_p_protection bitvec d.
Definition get_protection (d : Disassembler) : N := p_protection d.

(** [typedef Map<rose_addr_t, SgAsmInstruction*> InstructionMap] and
    [typedef Map<rose_addr_t, Exception> BadMap].  An instruction cache is an
    InstructionMap in which a null pointer marks an address where decoding
    was tried and failed. *)
Abbreviation InstructionMap := (gmap N SgAsmInstruction) (only parsing).
Abbreviation BadMap := (gmap N Exception) (only parsing).
Abbreviation InstructionCache := (gmap N (option SgAsmInstruction)) (only parsing).

Section Engine.

(** [virtual SgAsmInstruction *disassembleOne(const MemoryMap *map, rose_addr_t start_va, ...) = 0]:
    the architecture-specific decoder, which returns the instruction at an
    address or throws.  What SEARCH_UNKNOWN asks for, a one-byte
    pseudo-instruction made by the architecture-specific
    [make_unknown_instruction] in place of a failure, is the decoder's
    business: such a decoder returns where another throws. *)
Variable disassembleOne : MemoryMap -> rose_addr_t -> thrown SgAsmInstruction.

(** ** disassembleBlock *)

(** Modelled from the spec: decoding through the optional cache of
    disassembleBlock.  An address the cache already holds is not decoded
    again, a null entry stands for an earlier failure and is reported by an
    exception bound to the address, and the cache records every new decoding
    attempt. *)
Definition fetch (map : MemoryMap) (cache : option InstructionCache) (va : rose_addr_t)
    : thrown SgAsmInstruction * option InstructionCache :=
  match cache with
  | None => (disassembleOne map va, None)
  | Some c =>
      match c !! va with
      | Some (Some i) => (Ok i, cache)
      | Some None => (Throws (Exception_at "previous disassembly attempt failed" va), cache)
      | None =>
          match disassembleOne map va with
          | Ok i => (Ok i, Some (<[va := Some i]> c))
          | Throws e => (Throws e, Some (<[va := None]> c))
          end
      end
  end.

(** The address that follows an instruction decoded at [va], in 64-bit
    arithmetic. *)
Definition following_va (va : rose_addr_t) (i : SgAsmInstruction) : rose_addr_t :=
  wrap64 (va + insn_size i).

(** Modelled from the spec: straight-line control flow.  The comment of
    disassembleBlock in Disassembler.h continues a basic block "until we
    reach a branch instruction, or an instruction with no known successors";
    the specification continues it at an instruction with exactly one
    successor, the address that follows it, and ends it at an instruction
    with no successor or with several.  A block continues past an
    instruction that neither of the two ends: it is not a branch, and the
    address that follows it is its one successor. *)
Definition falls_through (va : rose_addr_t) (i : SgAsmInstruction) : bool :=
  negb (insn_is_branch i) && bool_decide (insn_successors i = {[ following_va va i ]}).

(** Why a block ended. *)
Inductive BlockEnd : Type :=
| EndTerminator                       (* a branch, or an instruction that does not fall through *)
| EndBounds                           (* the following address is outside the map *)
| EndDeadEnd (va : rose_addr_t)       (* decoding failed at va, block truncated *)
| EndThrow (e : Exception).           (* the call throws *)

Record BlockLoop : Type := mkBlockLoop {
  bl_end : BlockEnd;
  bl_insns : list (rose_addr_t * SgAsmInstruction);   (* in decoding order *)
  bl_ndisassembled : N;
  bl_cache : option InstructionCache
}.

(** Modelled from the spec: the body of [disassembleBlock] is not part of the
    sources at hand.  Starting at an address it decodes successive
    instructions, an instruction that falls through continuing the block,
    until a branch instruction or an instruction with no successor or with
    several ends the block, decoding fails, or the bounds of the map are
    exceeded.  When decoding fails after
    the first instruction and SEARCH_DEADEND is set the block is truncated
    before the failing instruction; otherwise the partial block is discarded
    and the decode error is thrown.  A start address outside the map is a
    bare exception.  [fuel] bounds the number of instructions; [None] means
    the bound was reached. *)
Fixpoint disassembleBlock_loop (fuel : nat) (search protection : N) (map : MemoryMap)
    (va : rose_addr_t) (insns : list (rose_addr_t * SgAsmInstruction))
    (ndisassembled : N) (cache : option InstructionCache) : option BlockLoop :=
  match fuel with
  | O => None
  | S fuel' =>
      if negb (map_exists map protection va) then
        match insns with
        | [] => Some (mkBlockLoop (EndThrow (Exception_bare "invalid address")) []
                        ndisassembled cache)
        | _ :: _ => Some (mkBlockLoop EndBounds insns ndisassembled cache)
        end
      else
        match fetch map cache va with
        | (Throws e, cache') =>
            match insns with
            | _ :: _ =>
                if has_bits search SEARCH_DEADEND
                then Some (mkBlockLoop (EndDeadEnd va) insns ndisassembled cache')
                else Some (mkBlockLoop (EndThrow e) [] ndisassembled cache')
            | [] => Some (mkBlockLoop (EndThrow e) [] ndisassembled cache')
            end
        | (Ok i, cache') =>
            let insns' := insns ++ [(va, i)] in
            let ndisassembled' := wrap64 (ndisassembled + 1) in
            if falls_through va i
            then disassembleBlock_loop fuel' search protection map (following_va va i)
                   insns' ndisassembled' cache'
            else Some (mkBlockLoop EndTerminator insns' ndisassembled' cache')
        end
  end.

(** What a call of [disassembleBlock] leaves behind: its result, the
    disassembler with its instruction counter, the optional successors set
    and the optional cache. *)
Record BlockRun : Type := mkBlockRun {
  br_result : thrown (list (rose_addr_t * SgAsmInstruction));
  br_end : BlockEnd;
  br_disassembler : Disassembler;
  br_successors : option (gset N);
  br_cache : option InstructionCache
}.

(** The successors of the last instruction of a block. *)
Definition last_successors (insns : list (rose_addr_t * SgAsmInstruction)) : gset N :=
  match last insns with
  | Some (_, i) => insn_successors i
  | None => ∅
  end.

(** Modelled from the spec:
    [InstructionMap disassembleBlock(const MemoryMap *map, rose_addr_t start_va,
    AddressSet *successors=NULL, InstructionMap *cache=NULL)], declared in
    Disassembler.h, whose body is not part of the sources at hand.  The
    successors of the last instruction are added to the successors set; a
    dead-end block adds the failing address instead; a call that throws
    leaves the set as it was.  The instructions of the returned
    InstructionMap are kept in the order in which they were decoded. *)
Definition disassembleBlock (fuel : nat) (d : Disassembler) (map : MemoryMap)
    (start_va : rose_addr_t) (successors : option (gset N))
    (cache : option InstructionCache) : option BlockRun :=
  match disassembleBlock_loop fuel (p_search d) (p_protection d) map start_va []
          (p_ndisassembled d) cache with
  | None => None
  | Some bl =>
      let d' := set_p_ndisassembled (bl_ndisassembled bl) d in
      Some
        match bl_end bl with
        | EndThrow e => mkBlockRun (Throws e) (EndThrow e) d' successors (bl_cache bl)
        | EndDeadEnd va =>
            mkBlockRun (Ok (bl_insns bl)) (EndDeadEnd va) d'
              ((fun s => s ∪ {[ va ]}) <$> successors) (bl_cache bl)
        | e =>
            mkBlockRun (Ok (bl_insns bl)) e d'
              ((fun s => s ∪ last_successors (bl_insns bl)) <$> successors) (bl_cache bl)
        end
  end.

(** The returned block as an InstructionMap. *)
Definition block_map (insns : list (rose_addr_t * SgAsmInstruction)) : gmap N SgAsmInstruction :=
  list_to_map insns.

(** ** Search heuristics

    The bodies of the search methods are not part of the sources at hand;
    each follows its description in the specification and in the comments of
    Disassembler.h.  [tried] is the instruction cache, which holds every
    address where decoding was attempted.  SEARCH_NONEXE and SEARCH_FUNCSYMS
    apply to the methods that choose sections or read symbols, above
    disassembleBuffer. *)

Definition was_tried (tried : gmap N (option SgAsmInstruction)) (va : rose_addr_t) : bool :=
  bool_decide (is_Some (tried !! va)).

(** Modelled from the spec: an address is queued when it is in the map and
    was not tried. *)
Definition enqueue (d : Disassembler) (map : MemoryMap)
    (tried : gmap N (option SgAsmInstruction)) (worklist : gset N) (va : rose_addr_t) : gset N :=
  if map_exists map (p_protection d) va && negb (was_tried tried va)
  then worklist ∪ {[ va ]} else worklist.

(** Modelled from the spec: [search_following] queues the address after the
    last instruction of the block, or after the start address when the block
    is empty. *)
Definition search_following (d : Disassembler) (worklist : gset N)
    (bb : list (rose_addr_t * SgAsmInstruction)) (bb_va : rose_addr_t) (map : MemoryMap)
    (tried : gmap N (option SgAsmInstruction)) : gset N :=
  let following :=
    match last bb with
    | None => wrap64 (bb_va + 1)
    | Some (_, i) => wrap64 (insn_address i + insn_size i)
    end in
  enqueue d map tried worklist following.

(** Modelled from the spec: [search_immediate] queues the immediate operand
    values of the instructions of the block. *)
Definition search_immediate (d : Disassembler) (worklist : gset N)
    (bb : list (rose_addr_t * SgAsmInstruction)) (map : MemoryMap)
    (tried : gmap N (option SgAsmInstruction)) : gset N :=
  foldl (enqueue d map tried) worklist (concat (List.map (fun e => insn_immediates e.2) bb)).

(** Modelled from the spec: the word of [p_wordsize] bytes at an address, in
    the byte order [p_sex]. *)
Definition read_word (d : Disassembler) (map : MemoryMap) (va : rose_addr_t) : option N :=
  bs ← mapM (fun k => map_byte map (p_protection d) (va + N.of_nat k))
        (seq 0 (N.to_nat (p_wordsize d)));
  Some (match p_sex d with
        | ORDER_MSB => foldl (fun acc b => 256 * acc + b) 0 bs
        | _ => foldr (fun b acc => b + 256 * acc) 0 bs
        end).

(** Modelled from the spec: [search_words] queues every aligned word of the
    map that is the address of a mapped byte; an alignment of 0 or 1 means
    every byte. *)
Definition search_words (d : Disassembler) (worklist : gset N) (map : MemoryMap)
    (tried : gmap N (option SgAsmInstruction)) : gset N :=
  let alignment := N.max 1 (p_alignment d) in
  foldl
    (fun w va =>
       if va mod alignment =? 0 then
         match read_word d map va with
         | Some value => enqueue d map tried w value
         | None => w
         end
       else w)
    worklist (map_addresses map (p_protection d)).

(** Modelled from the spec: [find_instruction_containing], whether the byte
    at [va] is part of an instruction of the map. *)
Definition instruction_containing (insns : gmap N SgAsmInstruction) (va : rose_addr_t) : bool :=
  bool_decide (Exists (fun e => e.1 <= va < e.1 + insn_size e.2) (map_to_list insns)).

(** Modelled from the spec: [search_next_address] queues the lowest mapped
    address at or above [start_va] where no disassembly was attempted and,
    with [avoid_overlaps], that no instruction covers. *)
Definition search_next_address (d : Disassembler) (worklist : gset N) (start_va : rose_addr_t)
    (map : MemoryMap) (insns : gmap N SgAsmInstruction)
    (tried : gmap N (option SgAsmInstruction)) (avoid_overlaps : bool) : gset N :=
  match
    List.find
      (fun va => (start_va <=? va)
                 && negb (was_tried tried va)
                 && negb (bool_decide (is_Some (insns !! va)))
                 && negb (avoid_overlaps && instruction_containing insns va))
      (map_addresses map (p_protection d))
  with
  | Some va => worklist ∪ {[ va ]}
  | None => worklist
  end.

(** ** disassembleBuffer *)

(** The lowest address of an AddressSet, [*worklist.begin()]. *)
Definition set_min (s : gset N) : option N :=
  foldr (fun x acc => Some (match acc with None => x | Some y => N.min x y end))
    None (elements s).

(** The state of one pass.  [ps_settled] is not a variable of the engine: it
    records, in order, each address at which the pass invoked disassembleBlock
    together with the addresses that attempt settled in the InstructionMap or
    the BadMap. *)
Record Pass : Type := mkPass {
  ps_disassembler : Disassembler;
  ps_worklist : gset N;
  ps_insns : gmap N SgAsmInstruction;
  ps_bad : option (gmap N Exception);
  ps_successors : option (gset N);
  ps_icache : gmap N (option SgAsmInstruction);
  ps_next_search : rose_addr_t;
  ps_settled : list (rose_addr_t * gset N)
}.

(** Modelled from the spec: when the worklist has run empty the gap-fill
    (SEARCH_UNUSED) and exhaustive (SEARCH_ALLBYTES) heuristics look for one
    more address, from low to high. *)
Definition more_addresses (map : MemoryMap) (ps : Pass) : Pass :=
  let d := ps_disassembler ps in
  if bool_decide (ps_worklist ps = ∅)
     && has_bits (p_search d) (N.lor SEARCH_ALLBYTES SEARCH_UNUSED)
  then
    let avoid_overlap := has_bits (p_search d) SEARCH_UNUSED in
    let worklist := search_next_address d (ps_worklist ps) (ps_next_search ps) map
                      (ps_insns ps) (ps_icache ps) avoid_overlap in
    let next_search :=
      match set_min worklist with
      | Some va => wrap64 (va + 1)
      | None => ps_next_search ps
      end in
    mkPass d worklist (ps_insns ps) (ps_bad ps) (ps_successors ps) (ps_icache ps)
      next_search (ps_settled ps)
  else ps.

Definition bad_has (bad : option (gmap N Exception)) (va : rose_addr_t) : bool :=
  match bad with
  | Some b => bool_decide (is_Some (b !! va))
  | None => false
  end.

Definition already_settled (ps : Pass) (va : rose_addr_t) : bool :=
  bool_decide (is_Some (ps_insns ps !! va)) || bad_has (ps_bad ps) va.

(** Modelled from the spec: one iteration of the worklist loop of
    [disassembleBuffer], whose body is not part of the sources at hand.  The
    lowest address is taken off the worklist.  An address already in the
    InstructionMap or the BadMap is skipped; an address outside the map goes
    to the successors set; at any other address disassembleBlock is invoked,
    its instructions are merged into the InstructionMap without replacing
    what is there, a failure goes to the BadMap under the start address, the
    successors it found go back to the worklist, and the per-block
    heuristics run. *)
Definition pass_step (fuel : nat) (map : MemoryMap) (ps : Pass) : option Pass :=
  match set_min (ps_worklist ps) with
  | None => Some ps
  | Some va =>
      let d := ps_disassembler ps in
      let worklist := ps_worklist ps ∖ {[ va ]} in
      if already_settled ps va then
        Some (more_addresses map
                (mkPass d worklist (ps_insns ps) (ps_bad ps) (ps_successors ps)
                   (ps_icache ps) (ps_next_search ps) (ps_settled ps)))
      else if negb (map_exists map (p_protection d) va) then
        Some (more_addresses map
                (mkPass d worklist (ps_insns ps) (ps_bad ps)
                   ((fun s => s ∪ {[ va ]}) <$> ps_successors ps)
                   (ps_icache ps) (ps_next_search ps) (ps_settled ps)))
      else
        match disassembleBlock fuel d map va (Some worklist) (Some (ps_icache ps)) with
        | None => None
        | Some br =>
            let d' := br_disassembler br in
            let worklist1 := default worklist (br_successors br) in
            let icache := default (ps_icache ps) (br_cache br) in
            let bb := match br_result br with Ok bb => bb | Throws _ => [] end in
            let insns := match br_result br with
                         | Ok bb => ps_insns ps ∪ block_map bb
                         | Throws _ => ps_insns ps
                         end in
            let bad := match br_result br with
                       | Ok _ => ps_bad ps
                       | Throws e => (fun b => <[va := e]> b) <$> ps_bad ps
                       end in
            let settled := match br_result br with
                           | Ok bb => dom (block_map bb)
                           | Throws _ => match ps_bad ps with Some _ => {[ va ]} | None => ∅ end
                           end in
            let worklist2 := if has_bits (p_search d') SEARCH_FOLLOWING
                             then search_following d' worklist1 bb va map icache
                             else worklist1 in
            let worklist3 := if has_bits (p_search d') SEARCH_IMMEDIATE
                             then search_immediate d' worklist2 bb map icache
                             else worklist2 in
            Some (more_addresses map
                    (mkPass d' worklist3 insns bad (ps_successors ps) icache
                       (ps_next_search ps) (ps_settled ps ++ [(va, settled)])))
        end
  end.

(** Modelled from the spec: the worklist loop, which ends when the worklist
    is empty; at most [n] iterations. *)
Fixpoint pass_loop (n fuel : nat) (map : MemoryMap) (ps : Pass) : option Pass :=
  if bool_decide (ps_worklist ps = ∅) then Some ps
  else
    match n with
    | O => None
    | S n' =>
        match pass_step fuel map ps with
        | None => None
        | Some ps' => pass_loop n' fuel map ps'
        end
    end.

(** Modelled from the spec: the state in which the loop starts, with a fresh
    InstructionMap and cache, the word scan when SEARCH_WORDS is set, and a
    first look for an address when the worklist is empty. *)
Definition pass_start (d : Disassembler) (map : MemoryMap) (workset : gset N)
    (successors : option (gset N)) (bad : option (gmap N Exception)) : Pass :=
  let worklist := if has_bits (p_search d) SEARCH_WORDS
                  then search_words d workset map ∅ else workset in
  more_addresses map (mkPass d worklist ∅ bad successors ∅ 0 []).

(** Modelled from the spec:
    [InstructionMap disassembleBuffer(const MemoryMap *map, AddressSet workset,
    AddressSet *successors=NULL, BadMap *bad=NULL)], declared in
    Disassembler.h, whose body is not part of the sources at hand.  The
    result is the state in which the pass ends: [ps_insns] is the returned
    InstructionMap.  [None] means the bound [fuel] was reached. *)
Definition disassembleBuffer (fuel : nat) (d : Disassembler) (map : MemoryMap)
    (workset : gset N) (successors : option (gset N)) (bad : option (gmap N Exception))
    : option Pass :=
  pass_loop fuel fuel map (pass_start d map workset successors bad).

(** [InstructionMap disassembleBuffer(const MemoryMap *map, size_t start_va, ...)] *)
Definition disassembleBuffer_at (fuel : nat) (d : Disassembler) (map : MemoryMap)
    (start_va : rose_addr_t) (successors : option (gset N)) (bad : option (gmap N Exception))
    : option Pass :=
  disassembleBuffer fuel d map {[ start_va ]} successors bad.

End Engine.

(* ===================================================================== *)
(** * A small decoder to run the engine on

    A decoder for five one- and two-byte x86 instructions, enough to run the
    scenarios of the specification: nop (90), ret (C3), hlt (F4), and the
    short jumps jmp (EB d) and je (74 d), the displacement read as an
    unsigned byte. *)

Definition EXECUTABLE : N := 1.

Definition disassembleOne_x86 (map : MemoryMap) (va : rose_addr_t) : thrown SgAsmInstruction :=
  match map_byte map EXECUTABLE va with
  | None => Throws (Exception_at "short read" va)
  | Some op =>
      if op =? 0x90 then Ok (mkInsn va 1 "nop" false [] {[ wrap64 (va + 1) ]})
      else if op =? 0xC3 then Ok (mkInsn va 1 "ret" true [] ∅)
      else if op =? 0xF4 then Ok (mkInsn va 1 "hlt" false [] ∅)
      else if (op =? 0xEB) || (op =? 0x74) then
        match map_byte map EXECUTABLE (va + 1) with
        | None => Throws (Exception_bytes "short read" va [op] 8)
        | Some d =>
            let target := wrap64 (va + 2 + d) in
            if op =? 0xEB then Ok (mkInsn va 2 "jmp" true [target] {[ target ]})
            else Ok (mkInsn va 2 "je" true [target] {[ wrap64 (va + 2); target ]})
        end
      else Throws (Exception_bytes "bad instruction" va [op] 0)
  end.

(** A buffer mapped executable at 0x1000. *)
Definition buffer_at_0x1000 (bytes : list N) : MemoryMap := [mkSegment 0x1000 bytes EXECUTABLE].

Definition engine (search : N) : Disassembler := set_search search (Disassembler_ctor EXECUTABLE).

(** A function at 0x1000 with analysis results that carry no data, as the
    allocating constructor returns it, and the same function frozen. *)
Definition main_function : Function unit unit unit := instance tt tt 0x1000 "main" 0.
Definition frozen_function : Function unit unit unit := (freeze main_function).2.
Definition data_block : DataBlock := mkDataBlock 1 0x3000 8.

(** The two no-ops of the buffer 90 90 EB, whose last byte starts a jump
    that the buffer cuts short. *)
Definition nop_at (va : rose_addr_t) : SgAsmInstruction :=
  mkInsn va 1 "nop" false [] {[ wrap64 (va + 1) ]}.
Definition two_nops : list (rose_addr_t * SgAsmInstruction) :=
  [(0x1000, nop_at 0x1000); (0x1001, nop_at 0x1001)].
Definition truncated_buffer : MemoryMap := buffer_at_0x1000 [0x90; 0x90; 0xEB].
Definition short_read_at_0x1002 : Exception := Exception_bytes "short read" 0x1002 [0xEB] 8.


(** A BadMap that holds the address of the truncated jump. *)
Definition bad_0x1002 : gmap N Exception := {[ 0x1002 := short_read_at_0x1002 ]}.

(** The buffer of two no-ops and a return, and a BadMap that names its
    second no-op, as a caller may hand it to a pass. *)
Definition nops_and_return : MemoryMap := buffer_at_0x1000 [0x90; 0x90; 0xC3].
Definition bad_0x1001 : gmap N Exception :=
  {[ 0x1001 := Exception_at "bad instruction" 0x1001 ]}.


(** The function at 0x1000 with a second basic block, with a cached no-op
    result, and with reason bits set. *)
Definition two_block_function : Function unit unit unit :=
  (insertBasicBlock 0x2000 main_function).2.
Definition analysed_function : Function unit unit unit :=
  (isNoop_store true main_function).2.
Definition tagged_function : Function unit unit unit := (reasons_set 5 main_function).2.

(* ===================================================================== *)
(** * Notions used to state the properties of the engine *)

Section EngineNotions.

Variable disassembleOne : MemoryMap -> rose_addr_t -> thrown SgAsmInstruction.
Variable map : MemoryMap.

(** A cache agrees with the decoder: it holds the instruction the decoder
    returns, and a null entry only where the decoder throws. *)
Definition cache_coherent (c : gmap N (option SgAsmInstruction)) : Prop :=
  forall va,
    match c !! va with
    | Some (Some i) => disassembleOne map va = Ok i
    | Some None => exists e, disassembleOne map va = Throws e
    | None => True
    end.

Definition cache_ok (cache : option (gmap N (option SgAsmInstruction))) : Prop :=
  match cache with
  | Some c => cache_coherent c
  | None => True
  end.

(** [straight_line protection va l stop]: decoding from [va] yields the
    instructions [l] one after the other, each falling through to the next,
    and the last one falls through to [stop]. *)
Fixpoint straight_line (protection : N) (va : rose_addr_t)
    (l : list (rose_addr_t * SgAsmInstruction)) (stop : rose_addr_t) : Prop :=
  match l with
  | [] => va = stop
  | (a, i) :: l' =>
      a = va
      ∧ map_exists map protection va = true
      ∧ disassembleOne map va = Ok i
      ∧ falls_through va i = true
      ∧ straight_line protection (following_va va i) l' stop
  end.

(** [doomed search protection va]: a block started at the mapped address
    [va] ends in a decode failure that makes disassembleBlock throw: decoding
    fails at [va] itself or, when SEARCH_DEADEND is clear, further along the
    straight line from [va]. *)
Inductive doomed (search protection : N) : rose_addr_t -> Prop :=
| doomed_here va e :
    map_exists map protection va = true ->
    disassembleOne map va = Throws e ->
    doomed search protection va
| doomed_later va i :
    has_bits search SEARCH_DEADEND = false ->
    map_exists map protection va = true ->
    disassembleOne map va = Ok i ->
    falls_through va i = true ->
    doomed search protection (following_va va i) ->
    doomed search protection va.

End EngineNotions.

(** An attempt at [va] fails: disassembleBlock started there throws. *)
Definition attempt_fails
    (disassembleOne : MemoryMap -> rose_addr_t -> thrown SgAsmInstruction)
    (d : Disassembler) (map : MemoryMap) (va : rose_addr_t) : Prop :=
  exists fuel br e,
    disassembleBlock disassembleOne fuel d map va None None = Some br
    ∧ br_result br = Throws e.

(** The addresses of a BadMap that may be absent. *)
Definition dom_bad (bad : option (gmap N Exception)) : gset N :=
  match bad with
  | Some b => dom b
  | None => ∅
  end.

(** Reading the record of a pass in order: no attempt is made at an address
    that was settled before the pass or by an earlier attempt. *)
Fixpoint never_retried (settled : gset N) (log : list (rose_addr_t * gset N)) : Prop :=
  match log with
  | [] => True
  | (va, s) :: log' => (va ∉ settled) ∧ never_retried (settled ∪ s) log'
  end.

(** All addresses the attempts of a record settled. *)
Definition settled_by (log : list (rose_addr_t * gset N)) : gset N :=
  ⋃ (List.map snd log).

(** The InstructionMap, the BadMap and the cache of a pass agree with the
    decoder: the cache is coherent, no instruction of the InstructionMap sits
    at a doomed address, and every address of the BadMap was handed to the
    pass ([given]), is outside the map, or is doomed. *)
Definition pass_consistent
    (disassembleOne : MemoryMap -> rose_addr_t -> thrown SgAsmInstruction)
    (map : MemoryMap) (search protection : N) (given : gset N) (ps : Pass) : Prop :=
  p_search (ps_disassembler ps) = search
  ∧ p_protection (ps_disassembler ps) = protection
  ∧ cache_coherent disassembleOne map (ps_icache ps)
  ∧ (forall a, a ∈ dom (ps_insns ps) ->
       map_exists map protection a = true
       ∧ ¬ doomed disassembleOne map search protection a)
  ∧ (forall a, a ∈ dom_bad (ps_bad ps) ->
       a ∈ given
       ∨ map_exists map protection a = false
       ∨ doomed disassembleOne map search protection a).

(** The record of a pass is in step with its maps: no recorded attempt
    retried a settled address, and what was settled before the pass and by
    the recorded attempts is what the two maps hold. *)
Definition pass_logged (settled : gset N) (ps : Pass) : Prop :=
  never_retried settled (ps_settled ps)
  ∧ settled ∪ settled_by (ps_settled ps) = dom (ps_insns ps) ∪ dom_bad (ps_bad ps).

(** What the specification says of a pass, as it words it: when a pass
    completes, no attempt was made at an address that the InstructionMap or
    the BadMap already held, and no address is in both maps. *)
Definition settled_once_claim
    (disassembleOne : MemoryMap -> rose_addr_t -> thrown SgAsmInstruction)
    (fuel : nat) (d : Disassembler) (map : MemoryMap) (workset : gset N)
    (successors : option (gset N)) (bad : option (gmap N Exception)) : Prop :=
  forall ps,
    disassembleBuffer disassembleOne fuel d map workset successors bad = Some ps ->
    never_retried (dom_bad bad) (ps_settled ps)
    ∧ (forall a, ¬ (a ∈ dom (ps_insns ps) ∧ a ∈ dom_bad (ps_bad ps))).




(* ===================================================================== *)
(** * Sequences of calls on the two objects *)

(** The calls whose bodies Function.h gives; the two data block methods are
    only declared there. *)
Definition in_header (c : call) : bool :=
  match c with
  | CallInsertDataBlock _ | CallEraseDataBlock _ => false
  | _ => true
  end.

(** The calls that change which blocks a function owns. *)
Definition is_structural (c : call) : bool :=
  match c with
  | CallInsertBasicBlock _ | CallEraseBasicBlock _ => true
  | _ => false
  end.

Definition is_thaw (c : call) : bool :=
  match c with CallThaw => true | _ => false end.

Definition stores_noop (c : call) : bool :=
  match c with CallIsNoopStore _ => true | _ => false end.

(** The calls that set a name, a comment, reason bits or the cached no-op
    result. *)
Definition is_setter (c : call) : bool :=
  match c with
  | CallName _ | CallComment _ | CallReasons _ | CallInsertReasons _
  | CallEraseReasons _ | CallIsNoopStore _ => true
  | _ => false
  end.

(** The reason bits a call passes fit the 32 bits of an [unsigned]. *)
Definition reasons_fit (c : call) : bool :=
  match c with
  | CallReasons r | CallInsertReasons r | CallEraseReasons r => r <? 2 ^ 32
  | _ => true
  end.

(** The nine heuristic bits of [enum SearchHeuristic]; SEARCH_DEFAULT is a
    combination of two of them. *)
Definition search_flags : list N :=
  [SEARCH_FOLLOWING; SEARCH_IMMEDIATE; SEARCH_WORDS; SEARCH_ALLBYTES; SEARCH_UNUSED;
   SEARCH_NONEXE; SEARCH_DEADEND; SEARCH_UNKNOWN; SEARCH_FUNCSYMS].

(** The setters whose bodies Disassembler.h gives, and a sequence of calls
    to them. *)
Inductive setting : Type :=
| SetRegisters (rdict : option N)
| SetPartitioner (p : option N)
| SetSearch (bits : N)
| SetSex (sex : Endianness)
| SetProtection (bitvec : N).

Definition apply_setting (d : Disassembler) (s : setting) : Disassembler :=
  match s with
  | SetRegisters rdict => set_registers rdict d
  | SetPartitioner p => set_partitioner p d
  | SetSearch bits => set_search bits d
  | SetSex sex => set_sex sex d
  | SetProtection bitvec => set_protection bitvec d
  end.

Definition configure (d : Disassembler) (ss : list setting) : Disassembler :=
  foldl apply_setting d ss.

(** The value the last call of one setter passed, if the sequence has such
    a call. *)
Definition last_of {A} (pick : setting -> option A) (ss : list setting) : option A :=
  last (omap pick ss).

Definition pick_registers (s : setting) : option (option N) :=
  match s with SetRegisters r => Some r | _ => None end.
Definition pick_partitioner (s : setting) : option (option N) :=
  match s with SetPartitioner p => Some p | _ => None end.
Definition pick_search (s : setting) : option N :=
  match s with SetSearch b => Some b | _ => None end.
Definition pick_sex (s : setting) : option Endianness :=
  match s with SetSex x => Some x | _ => None end.
Definition pick_protection (s : setting) : option N :=
  match s with SetProtection b => Some b | _ => None end.
(* ===================================================================== *)
(** * Properties of Partitioner2::Function *)

Section FunctionProperties.

Context {CCAnalysis SDAnalysis SValue : Type}.
Context (ccAnalysis_default : CCAnalysis) (stackDeltaAnalysis_default : SDAnalysis).

Local Abbreviation Fn := (Function CCAnalysis SDAnalysis SValue).

(** Running a method body: unfold the sequencing and the primitive steps. *)
Ltac step_method :=
  unfold mbind, method_bind, mret, method_ret, get, modify,
    ASSERT_forbid, ASSERT_forbid2, clearCache in *.

Lemma set_bblockVas_same (f : Fn) : set_bblockVas_ (bblockVas_ f) f = f.
Proof. by destruct f. Qed.

(** A frozen function aborts each structural mutator at its first check,
    before anything is written. *)
Lemma insertBasicBlock_frozen (f : Fn) va :
  isFrozen_ f = true -> insertBasicBlock va f = (Aborts "assertion failed", f).
Proof. intros H. unfold insertBasicBlock. step_method. by rewrite H. Qed.

Lemma eraseBasicBlock_frozen (f : Fn) va :
  isFrozen_ f = true -> eraseBasicBlock va f = (Aborts "assertion failed", f).
Proof. intros H. unfold eraseBasicBlock. step_method. by rewrite H. Qed.

Lemma insertDataBlock_frozen (f : Fn) p :
  isFrozen_ f = true -> insertDataBlock p f = (Aborts "assertion failed", f).
Proof. intros H. unfold insertDataBlock. step_method. by rewrite H. Qed.

Lemma eraseDataBlock_frozen (f : Fn) p :
  isFrozen_ f = true -> eraseDataBlock p f = (Aborts "assertion failed", f).
Proof. intros H. unfold eraseDataBlock. step_method. by rewrite H. Qed.

(** C1: on a frozen function each of insertBasicBlock, eraseBasicBlock,
    insertDataBlock and eraseDataBlock aborts, and the basic block address
    set and the data block list are what they were before the call. *)
Theorem frozen_rejects_structural_mutation (f : Fn) (va : rose_addr_t) (p : DataBlockPtr) :
  isFrozen f = true ->
  (aborted (insertBasicBlock va f).1 = true
   ∧ basicBlockAddresses (insertBasicBlock va f).2 = basicBlockAddresses f
   ∧ dataBlocks (insertBasicBlock va f).2 = dataBlocks f)
  ∧ (aborted (eraseBasicBlock va f).1 = true
   ∧ basicBlockAddresses (eraseBasicBlock va f).2 = basicBlockAddresses f
   ∧ dataBlocks (eraseBasicBlock va f).2 = dataBlocks f)
  ∧ (aborted (insertDataBlock p f).1 = true
   ∧ basicBlockAddresses (insertDataBlock p f).2 = basicBlockAddresses f
   ∧ dataBlocks (insertDataBlock p f).2 = dataBlocks f)
  ∧ (aborted (eraseDataBlock p f).1 = true
   ∧ basicBlockAddresses (eraseDataBlock p f).2 = basicBlockAddresses f
   ∧ dataBlocks (eraseDataBlock p f).2 = dataBlocks f).
Proof.
  intros H. unfold isFrozen in H.
  rewrite (insertBasicBlock_frozen f va H), (eraseBasicBlock_frozen f va H),
    (insertDataBlock_frozen f p H), (eraseDataBlock_frozen f p H).
  simpl. tauto.
Qed.

(** ** The entry address stays owned *)

Lemma instance_entry_owned entryVa nm rs :
  entry_owned (instance ccAnalysis_default stackDeltaAnalysis_default entryVa nm rs : Fn).
Proof. unfold entry_owned, instance, Function_ctor, address, basicBlockAddresses. simpl. set_solver. Qed.

Lemma eraseBasicBlock_entry (f : Fn) :
  aborted (eraseBasicBlock (address f) f).1 = true ∧ (eraseBasicBlock (address f) f).2 = f.
Proof.
  unfold eraseBasicBlock, address. step_method.
  destruct (isFrozen_ f); simpl; [done|].
  by rewrite N.eqb_refl.
Qed.

Lemma insertBasicBlock_entry_owned (f : Fn) va :
  entry_owned f -> entry_owned (insertBasicBlock va f).2.
Proof.
  unfold entry_owned, insertBasicBlock, address, basicBlockAddresses. step_method.
  intros H. destruct (isFrozen_ f); simpl; [done|].
  destruct (bool_decide _); simpl; set_solver.
Qed.

Lemma eraseBasicBlock_entry_owned (f : Fn) va :
  entry_owned f -> entry_owned (eraseBasicBlock va f).2.
Proof.
  unfold entry_owned, eraseBasicBlock, address, basicBlockAddresses. step_method.
  intros H. destruct (isFrozen_ f); simpl; [done|].
  destruct (N.eqb_spec va (entryVa_ f)); simpl; [done|].
  set_solver.
Qed.

Lemma insertDataBlock_blocks (f : Fn) p :
  entryVa_ (insertDataBlock p f).2 = entryVa_ f
  ∧ bblockVas_ (insertDataBlock p f).2 = bblockVas_ f.
Proof.
  unfold insertDataBlock. step_method.
  destruct (isFrozen_ f); simpl; [done|].
  destruct p as [db|]; simpl; [|done].
  by destruct (bool_decide _).
Qed.

Lemma eraseDataBlock_blocks (f : Fn) p :
  entryVa_ (eraseDataBlock p f).2 = entryVa_ f
  ∧ bblockVas_ (eraseDataBlock p f).2 = bblockVas_ f.
Proof.
  unfold eraseDataBlock. step_method.
  destruct (isFrozen_ f); simpl; [done|].
  destruct p as [db|]; simpl; [|done].
  by destruct (bool_decide _).
Qed.

Lemma perform_entry_owned (c : call) (f : Fn) :
  entry_owned f -> entry_owned (perform c f).2.
Proof.
  intros H. destruct c; simpl; try exact H.
  - pose proof (insertBasicBlock_entry_owned f va H) as H'.
    unfold mbind, method_bind. by destruct (insertBasicBlock va f) as [[b|msg] f'].
  - by apply eraseBasicBlock_entry_owned.
  - destruct (insertDataBlock_blocks f p) as [He Hb].
    unfold mbind, method_bind.
    destruct (insertDataBlock p f) as [[b|msg] f']; simpl in *;
      unfold entry_owned, address, basicBlockAddresses in *; by rewrite He, Hb.
  - destruct (eraseDataBlock_blocks f p) as [He Hb].
    unfold entry_owned, address, basicBlockAddresses in *; by rewrite He, Hb.
Qed.

Lemma run_entry_owned (cs : list call) (f : Fn) :
  entry_owned f -> entry_owned (run cs f).2.
Proof.
  revert f. induction cs as [|c cs IH]; intros f H; simpl; [exact H|].
  pose proof (perform_entry_owned c f H) as Hc.
  unfold mbind, method_bind.
  destruct (perform c f) as [[[]|msg] f']; simpl in *; [by apply IH | exact Hc].
Qed.

(** C2: every function object, that is the constructed object after any
    history of calls, owns its entry address, and still owns it after any
    further sequence of calls; erasing the entry address aborts and leaves
    the basic block addresses as they were. *)
Theorem function_entry_invariant (entryVa : rose_addr_t) (nm : string) (rs : N)
    (history cs : list call) :
  let f : Fn := (run history (instance ccAnalysis_default stackDeltaAnalysis_default entryVa nm rs)).2 in
  let f' := (run cs f).2 in
  address f ∈ basicBlockAddresses f
  ∧ address f' ∈ basicBlockAddresses f'
  ∧ aborted (eraseBasicBlock (address f) f).1 = true
  ∧ basicBlockAddresses (eraseBasicBlock (address f) f).2 = basicBlockAddresses f.
Proof.
  intros f f'.
  assert (entry_owned f) as Hf by apply run_entry_owned, instance_entry_owned.
  split; [exact Hf|].
  split; [by apply run_entry_owned|].
  destruct (eraseBasicBlock_entry f) as [Ha Hs]. by rewrite Hs.
Qed.

(** ** insertBasicBlock and eraseBasicBlock on a thawed function *)

(** C6: on a thawed function, inserting an address that is already owned
    returns false and changes nothing; inserting any other address adds it to
    the set, clears the cached no-op result and returns true. *)
Theorem insertBasicBlock_thawed (f : Fn) (a : rose_addr_t) :
  isFrozen f = false ->
  (a ∈ basicBlockAddresses f -> insertBasicBlock a f = (Returns false, f))
  ∧ (a ∉ basicBlockAddresses f ->
       insertBasicBlock a f
       = (Returns true, set_isNoop_ None (set_bblockVas_ ({[ a ]} ∪ bblockVas_ f) f))
       ∧ basicBlockAddresses (insertBasicBlock a f).2 = {[ a ]} ∪ basicBlockAddresses f
       ∧ isNoop (insertBasicBlock a f).2 = None).
Proof.
  unfold isFrozen, basicBlockAddresses. intros Hth.
  unfold insertBasicBlock. step_method.
  rewrite Hth. simpl. split; intros Ha.
  - rewrite bool_decide_eq_true_2 by done. simpl.
    replace ({[a]} ∪ bblockVas_ f) with (bblockVas_ f) by set_solver.
    by rewrite set_bblockVas_same.
  - rewrite bool_decide_eq_false_2 by done. simpl. done.
Qed.

(** On a thawed function, erasing an address other than the entry address
    returns and always clears the cached no-op result; when the address is
    not owned nothing else changes. *)
Lemma eraseBasicBlock_thawed (f : Fn) (a : rose_addr_t) :
  isFrozen f = false -> a ≠ address f ->
  eraseBasicBlock a f
  = (Returns tt, set_bblockVas_ (bblockVas_ f ∖ {[ a ]}) (set_isNoop_ None f)).
Proof.
  unfold isFrozen, address. intros Hth Hne.
  unfold eraseBasicBlock. step_method.
  rewrite Hth. simpl.
  by destruct (N.eqb_spec a (entryVa_ f)).
Qed.

Lemma eraseBasicBlock_unowned (f : Fn) (a : rose_addr_t) :
  isFrozen f = false -> a ≠ address f -> a ∉ basicBlockAddresses f ->
  eraseBasicBlock a f = (Returns tt, set_isNoop_ None f).
Proof.
  intros Hth Hne Hni. rewrite eraseBasicBlock_thawed by done.
  unfold basicBlockAddresses in Hni.
  replace (bblockVas_ f ∖ {[a]}) with (bblockVas_ (set_isNoop_ None f)) by (simpl; set_solver).
  by rewrite set_bblockVas_same.
Qed.

(** C7, evaluated: a thawed function with entry 0x1000 whose no-op analysis
    result is cached as true; erasing 0x2000, which it does not own and which
    is not its entry, returns with the same block set and an empty cache. *)
Theorem eraseBasicBlock_unowned_clears_cache :
  let f : Fn := set_isNoop_ (Some true)
                  (instance ccAnalysis_default stackDeltaAnalysis_default 0x1000 "f" 0) in
  let f' := (eraseBasicBlock 0x2000 f).2 in
  isFrozen f = false ∧ 0x2000 ≠ address f ∧ (0x2000 ∉ basicBlockAddresses f)
  ∧ basicBlockAddresses f' = basicBlockAddresses f
  ∧ isNoop f = Some true ∧ isNoop f' = None ∧ f' ≠ f.
Proof.
  intros f f'.
  assert (isFrozen f = false) as Hth by done.
  assert (0x2000 ≠ address f) as Hne by done.
  assert (0x2000 ∉ basicBlockAddresses f) as Hni.
  { unfold f, basicBlockAddresses, instance, Function_ctor. simpl. set_solver. }
  pose proof (eraseBasicBlock_unowned f 0x2000 Hth Hne Hni) as He.
  unfold f'. rewrite He. simpl.
  repeat split; try done.
Qed.

(** ** Setters of non-structural fields ignore the frozen flag *)

Lemma land_lnot32_diag (x r : N) : r < 2 ^ 32 -> N.land (N.land x (N.lnot r 32)) r = 0.
Proof.
  intros Hr. apply N.bits_inj_0. intros n.
  rewrite !N.land_spec.
  destruct (N.testbit r n) eqn:Hb; [|by rewrite andb_false_r].
  assert (n < 32) as Hn.
  { destruct (N.lt_ge_cases n 32) as [|Hge]; [done|].
    assert (N.testbit r n = false) as Hf; [|congruence].
    apply N.bits_above_log2.
    destruct (N.eq_dec r 0) as [->|Hr0]; [by rewrite N.bits_0 in Hb|].
    apply N.log2_lt_pow2 in Hr; lia. }
  rewrite N.lnot_spec_low by done. rewrite Hb. simpl. by rewrite andb_false_r.
Qed.

(** C10: on a frozen function the setters name, comment, reasons,
    insertReasons and eraseReasons return normally and update their field,
    and leave the basic block address set and the frozen flag alone. *)
Theorem frozen_allows_nonstructural_setters (f : Fn) (s : string) (u : N) :
  isFrozen f = true -> u < 2 ^ 32 ->
  ((name_set s f).1 = Returns tt ∧ name (name_set s f).2 = s
     ∧ basicBlockAddresses (name_set s f).2 = basicBlockAddresses f
     ∧ isFrozen (name_set s f).2 = true)
  ∧ ((comment_set s f).1 = Returns tt ∧ comment (comment_set s f).2 = s
     ∧ basicBlockAddresses (comment_set s f).2 = basicBlockAddresses f
     ∧ isFrozen (comment_set s f).2 = true)
  ∧ ((reasons_set u f).1 = Returns tt ∧ reasons (reasons_set u f).2 = u
     ∧ basicBlockAddresses (reasons_set u f).2 = basicBlockAddresses f
     ∧ isFrozen (reasons_set u f).2 = true)
  ∧ ((insertReasons u f).1 = Returns tt
     ∧ N.land (reasons (insertReasons u f).2) u = u
     ∧ basicBlockAddresses (insertReasons u f).2 = basicBlockAddresses f
     ∧ isFrozen (insertReasons u f).2 = true)
  ∧ ((eraseReasons u f).1 = Returns tt
     ∧ N.land (reasons (eraseReasons u f).2) u = 0
     ∧ basicBlockAddresses (eraseReasons u f).2 = basicBlockAddresses f
     ∧ isFrozen (eraseReasons u f).2 = true).
Proof.
  intros Hfr Hu. unfold isFrozen in *.
  unfold name_set, comment_set, reasons_set, insertReasons, eraseReasons, modify,
    name, comment, reasons, basicBlockAddresses. simpl.
  repeat split; try done.
  - apply N.bits_inj. intros n. rewrite N.land_spec, N.lor_spec.
    by destruct (N.testbit (reasons_ f) n), (N.testbit u n).
  - by apply land_lnot32_diag.
Qed.

End FunctionProperties.

(* ===================================================================== *)
(** * Properties of the disassembler *)

(** C9: a new disassembler searches with SEARCH_DEFAULT, which is
    SEARCH_FOLLOWING | SEARCH_FUNCSYMS = 0x0101 and holds no other heuristic
    bit. *)
Theorem default_search_heuristics (MemoryMap_EXECUTABLE : N) :
  get_search (Disassembler_ctor MemoryMap_EXECUTABLE) = SEARCH_DEFAULT
  ∧ SEARCH_DEFAULT = N.lor SEARCH_FOLLOWING SEARCH_FUNCSYMS
  ∧ SEARCH_DEFAULT = 0x0101
  ∧ has_bits SEARCH_DEFAULT SEARCH_FOLLOWING = true
  ∧ has_bits SEARCH_DEFAULT SEARCH_FUNCSYMS = true
  ∧ has_bits SEARCH_DEFAULT SEARCH_IMMEDIATE = false
  ∧ has_bits SEARCH_DEFAULT SEARCH_WORDS = false
  ∧ has_bits SEARCH_DEFAULT SEARCH_ALLBYTES = false
  ∧ has_bits SEARCH_DEFAULT SEARCH_UNUSED = false
  ∧ has_bits SEARCH_DEFAULT SEARCH_NONEXE = false
  ∧ has_bits SEARCH_DEFAULT SEARCH_DEADEND = false
  ∧ has_bits SEARCH_DEFAULT SEARCH_UNKNOWN = false
  ∧ (forall n, N.testbit SEARCH_DEFAULT n = true -> n = 0 ∨ n = 8).
Proof.
  repeat split; try reflexivity.
  intros n Hn.
  destruct (N.lt_ge_cases n 9) as [Hlt|Hge].
  - assert (n = 0 ∨ n = 1 ∨ n = 2 ∨ n = 3 ∨ n = 4 ∨ n = 5 ∨ n = 6 ∨ n = 7 ∨ n = 8) as Hc by lia.
    destruct Hc as [->|[->|[->|[->|[->|[->|[->|[->| ->]]]]]]]]; auto; discriminate Hn.
  - rewrite N.bits_above_log2 in Hn; [discriminate|].
    change (N.log2 SEARCH_DEFAULT) with 8. lia.
Qed.

Section BlockProperties.

Variable disassembleOne : MemoryMap -> rose_addr_t -> thrown SgAsmInstruction.
Variable map : MemoryMap.

Local Abbreviation coherent := (cache_coherent disassembleOne map).
Local Abbreviation cache_ok' := (cache_ok disassembleOne map).

Lemma coherent_insert_ok c va i :
  coherent c -> disassembleOne map va = Ok i -> coherent (<[va := Some i]> c).
Proof.
  intros Hc Hd a. destruct (decide (va = a)) as [->|Hne].
  - by rewrite lookup_insert_eq.
  - rewrite lookup_insert_ne by done. apply Hc.
Qed.

Lemma coherent_insert_fail c va e :
  coherent c -> disassembleOne map va = Throws e -> coherent (<[va := None]> c).
Proof.
  intros Hc Hd a. destruct (decide (va = a)) as [->|Hne].
  - rewrite lookup_insert_eq. eauto.
  - rewrite lookup_insert_ne by done. apply Hc.
Qed.

(** Through a coherent cache, fetching returns what the decoder returns; a
    failure may be reported by the exception that stands for a cached
    failure. *)
Lemma fetch_ok cache va i :
  cache_ok' cache -> disassembleOne map va = Ok i ->
  exists cache', fetch disassembleOne map cache va = (Ok i, cache') ∧ cache_ok' cache'.
Proof.
  intros Hc Hd. destruct cache as [c|]; simpl in *.
  - pose proof (Hc va) as Hva. unfold fetch.
    destruct (c !! va) as [[j|]|] eqn:Hl.
    + rewrite Hd in Hva. injection Hva as ->. eauto.
    + destruct Hva as [e He]. congruence.
    + rewrite Hd. eexists. split; [done|]. by apply coherent_insert_ok.
  - unfold fetch. rewrite Hd. by exists None.
Qed.

Lemma fetch_throws cache va e :
  cache_ok' cache -> disassembleOne map va = Throws e ->
  exists e' cache',
    fetch disassembleOne map cache va = (Throws e', cache') ∧ cache_ok' cache'
    ∧ (e' = e ∨ e' = Exception_at "previous disassembly attempt failed" va).
Proof.
  intros Hc Hd. destruct cache as [c|]; simpl in *.
  - pose proof (Hc va) as Hva. unfold fetch.
    destruct (c !! va) as [[j|]|] eqn:Hl.
    + congruence.
    + eexists _, _. split; [done|]. split; [done|]. by right.
    + rewrite Hd. eexists _, _. split; [done|]. split; [|by left].
      by eapply coherent_insert_fail.
  - unfold fetch. rewrite Hd. exists e, None. auto.
Qed.

(** Whatever the cache holds, a fetch leaves a coherent cache coherent and
    its answer has the kind of the decoder's. *)
Lemma fetch_coherent cache va r cache' :
  cache_ok' cache -> fetch disassembleOne map cache va = (r, cache') ->
  cache_ok' cache'
  ∧ match r with
    | Ok i => disassembleOne map va = Ok i
    | Throws _ => exists e, disassembleOne map va = Throws e
    end.
Proof.
  intros Hc Hf. destruct (disassembleOne map va) as [i|e] eqn:Hd.
  - destruct (fetch_ok cache va i Hc Hd) as (c2 & Hf2 & Hc2).
    rewrite Hf in Hf2. injection Hf2 as -> ->. done.
  - destruct (fetch_throws cache va e Hc Hd) as (e2 & c2 & Hf2 & Hc2 & _).
    rewrite Hf in Hf2. injection Hf2 as -> ->. eauto.
Qed.

(** Along a straight line the loop decodes one instruction after the other
    and arrives at the end of the line with the instructions appended. *)
Lemma loop_straight_line search protection l :
  forall fuel va insns nd cache stop,
    straight_line disassembleOne map protection va l stop ->
    cache_ok' cache ->
    exists nd' cache',
      cache_ok' cache'
      ∧ disassembleBlock_loop disassembleOne (length l + fuel) search protection map va insns nd cache
        = disassembleBlock_loop disassembleOne fuel search protection map stop (insns ++ l) nd' cache'.
Proof.
  induction l as [|[a i] l IH]; intros fuel va insns nd cache stop Hl Hc; simpl in Hl.
  - subst. exists nd, cache. by rewrite app_nil_r.
  - destruct Hl as (-> & Hm & Hd & Hft & Hl).
    destruct (fetch_ok cache va i Hc Hd) as (c1 & Hf & Hc1).
    destruct (IH fuel (following_va va i) (insns ++ [(va, i)]) (wrap64 (nd + 1)) c1 stop Hl Hc1)
      as (nd' & c' & Hc' & Heq).
    exists nd', c'. split; [done|].
    simpl. rewrite Hm. simpl. rewrite Hf, Hft, Heq.
    by rewrite <- app_assoc.
Qed.

(** C3: decoding fails at [a] after the instructions [l], which is not
    empty.  With SEARCH_DEADEND set the call returns [l], the block before
    the failing instruction, and adds [a] to the successors set.  With
    SEARCH_DEADEND clear the call returns no block: it throws an exception
    whose address is [a] and the successors set is as it was. *)
Theorem disassembleBlock_decode_failure (fuel : nat) (d : Disassembler)
    (start_va : rose_addr_t) (l : list (rose_addr_t * SgAsmInstruction))
    (a : rose_addr_t) (e : Exception) (successors : option (gset N))
    (cache : option (gmap N (option SgAsmInstruction))) :
  l ≠ [] ->
  straight_line disassembleOne map (p_protection d) start_va l a ->
  map_exists map (p_protection d) a = true ->
  disassembleOne map a = Throws e ->
  ip e = a ->
  cache_ok disassembleOne map cache ->
  (length l < fuel)%nat ->
  exists br,
    disassembleBlock disassembleOne fuel d map start_va successors cache = Some br
    ∧ (has_bits (p_search d) SEARCH_DEADEND = true ->
         br_result br = Ok l
         ∧ br_end br = EndDeadEnd a
         ∧ br_successors br = (fun s => s ∪ {[ a ]}) <$> successors)
    ∧ (has_bits (p_search d) SEARCH_DEADEND = false ->
         (exists e', br_result br = Throws e' ∧ ip e' = a)
         ∧ br_successors br = successors).
Proof.
  intros Hne Hl Hm Hd Hip Hc Hfuel.
  replace fuel with (length l + S (fuel - length l - 1))%nat by lia.
  destruct (loop_straight_line (p_search d) (p_protection d) l (S (fuel - length l - 1))
              start_va [] (p_ndisassembled d) cache a Hl Hc) as (nd' & c' & Hc' & Heq).
  destruct (fetch_throws c' a e Hc' Hd) as (e' & c'' & Hf & _ & He').
  assert (ip e' = a) as Hip' by (destruct He' as [->| ->]; done).
  unfold disassembleBlock. rewrite Heq. simpl. rewrite Hm. simpl. rewrite Hf.
  destruct l as [|x l]; [done|]. simpl.
  destruct (has_bits (p_search d) SEARCH_DEADEND) eqn:Hdead; simpl.
  - eexists. split; [done|]. simpl. split; [done|]. intros; discriminate.
  - eexists. split; [done|]. simpl. split; [intros; discriminate|]. eauto.
Qed.

(** ** The shape of a returned block *)






(** ** Blocks and decode failures *)

Lemma fetch_keeps_cache cache va r cache' :
  fetch disassembleOne map cache va = (r, cache') -> is_Some cache -> is_Some cache'.
Proof.
  intros Hf [c ->]. unfold fetch in Hf.
  destruct (c !! va) as [[i|]|]; [by injection Hf as <- <- ..|by injection Hf as <- <-|].
  destruct (disassembleOne map va); by injection Hf as <- <-.
Qed.

Lemma loop_keeps_cache search protection fuel :
  forall va insns nd cache bl,
    disassembleBlock_loop disassembleOne fuel search protection map va insns nd cache = Some bl ->
    is_Some cache -> is_Some (bl_cache bl).
Proof.
  induction fuel as [|fuel IH]; intros va insns nd cache bl Hrun Hc; [done|].
  simpl in Hrun.
  destruct (map_exists map protection va); simpl in Hrun.
  - destruct (fetch disassembleOne map cache va) as [[i|e] cache'] eqn:Hf;
      pose proof (fetch_keeps_cache _ _ _ _ Hf Hc) as Hc'.
    + destruct (falls_through va i); [by eapply IH|by injection Hrun as <-].
    + destruct insns; [by injection Hrun as <-|].
      destruct (has_bits search SEARCH_DEADEND); by injection Hrun as <-.
  - destruct insns; by injection Hrun as <-.
Qed.

Lemma doomed_mapped search protection va :
  doomed disassembleOne map search protection va -> map_exists map protection va = true.
Proof. by destruct 1. Qed.

(** What the end of the loop says about decode failures: the loop throws
    only at an address outside the map or at a doomed address, and no
    instruction of a block it returns sits at a doomed address. *)
Lemma loop_doomed search protection fuel :
  forall va insns nd cache bl,
    disassembleBlock_loop disassembleOne fuel search protection map va insns nd cache = Some bl ->
    cache_ok' cache ->
    cache_ok' (bl_cache bl)
    ∧ match bl_end bl with
      | EndThrow _ =>
          (insns = [] ∨ has_bits search SEARCH_DEADEND = false)
          ∧ ((map_exists map protection va = false ∧ insns = [])
             ∨ doomed disassembleOne map search protection va)
      | _ =>
          exists new,
            bl_insns bl = insns ++ new
            ∧ (forall a i, (a, i) ∈ new ->
                 map_exists map protection a = true
                 ∧ ¬ doomed disassembleOne map search protection a)
            ∧ (has_bits search SEARCH_DEADEND = false ->
                 ¬ doomed disassembleOne map search protection va)
      end.
Proof.
  induction fuel as [|fuel IH]; intros va insns nd cache bl Hrun Hc; [done|].
  simpl in Hrun.
  destruct (map_exists map protection va) eqn:Hm; simpl in Hrun.
  - destruct (fetch disassembleOne map cache va) as [[i|e] cache'] eqn:Hf;
      destruct (fetch_coherent _ _ _ _ Hc Hf) as [Hc' Hd].
    + assert (falls_through va i = false
              ∨ has_bits search SEARCH_DEADEND = true
              ∨ ¬ doomed disassembleOne map search protection (following_va va i) ->
              ¬ doomed disassembleOne map search protection va) as Hstep.
      { intros Hcase Hdm.
        inversion Hdm as [? ? ? Hd'|? j Hde ? Hd' Hft' Hn']; [congruence|].
        rewrite Hd in Hd'. injection Hd' as <-.
        destruct Hcase as [?|[?|?]]; [congruence|congruence|done]. }
      destruct (falls_through va i) eqn:Hft.
      * destruct (IH _ _ _ _ _ Hrun Hc') as [Hcb Hend]. split; [done|].
        destruct (bl_end bl) eqn:Hbe.
        all: try (destruct Hend as (new & Hins & Hnew & Hnext);
                  exists ((va, i) :: new); split; [by rewrite Hins, <- app_assoc|];
                  assert (¬ doomed disassembleOne map search protection va) as Hnd
                    by (apply Hstep; right;
                        destruct (has_bits search SEARCH_DEADEND); [by left|right; by apply Hnext]);
                  split; [|done];
                  intros a j [Heq|Hin]%elem_of_cons; [injection Heq as -> ->; by split|exact (Hnew _ _ Hin)]).
        destruct Hend as [[Hnil|Hde] [[_ Hnil']|Hdm]];
          try (by destruct insns).
        split; [by right|]. right. by eapply doomed_later.
      * injection Hrun as <-. simpl. split; [done|].
        exists [(va, i)]. split; [done|].
        assert (¬ doomed disassembleOne map search protection va) as Hnd
          by (apply Hstep; by left).
        split; [|done]. intros a j Heq%list_elem_of_singleton. injection Heq as -> ->. by split.
    + destruct Hd as [e0 Hd].
      assert (doomed disassembleOne map search protection va) as Hdm by (by eapply doomed_here).
      destruct insns as [|x insns'].
      { injection Hrun as <-. simpl. split; [done|]. split; [by left|by right]. }
      destruct (has_bits search SEARCH_DEADEND) eqn:Hde; injection Hrun as <-; simpl.
      * split; [done|]. exists []. rewrite app_nil_r. split; [done|].
        split; [by intros a j Hin%elem_of_nil|done].
      * split; [done|]. split; [by right|by right].
  - assert (¬ doomed disassembleOne map search protection va) as Hnd.
    { intros Hdm%doomed_mapped. congruence. }
    destruct insns as [|x insns']; injection Hrun as <-; simpl.
    + split; [done|]. split; [by left|by left].
    + split; [done|]. exists []. rewrite app_nil_r. split; [done|].
      split; [by intros a j Hin%elem_of_nil|done].
Qed.

(** A call of disassembleBlock that throws at a mapped address started at a
    doomed address; a call that returns a block returns instructions none of
    which sits at a doomed address. *)
Lemma disassembleBlock_doomed fuel d start_va successors cache br :
  disassembleBlock disassembleOne fuel d map start_va successors cache = Some br ->
  cache_ok' cache ->
  cache_ok' (br_cache br)
  ∧ (is_Some cache -> is_Some (br_cache br))
  ∧ p_search (br_disassembler br) = p_search d
  ∧ p_protection (br_disassembler br) = p_protection d
  ∧ match br_result br with
    | Throws _ =>
        map_exists map (p_protection d) start_va = false
        ∨ doomed disassembleOne map (p_search d) (p_protection d) start_va
    | Ok insns =>
        forall a i, (a, i) ∈ insns ->
          map_exists map (p_protection d) a = true
          ∧ ¬ doomed disassembleOne map (p_search d) (p_protection d) a
    end.
Proof.
  unfold disassembleBlock. intros Hrun Hc.
  destruct (disassembleBlock_loop _ _ _ _ _ _ _ _ _) as [bl|] eqn:Hloop; [|done].
  injection Hrun as <-.
  destruct (loop_doomed _ _ _ _ _ _ _ _ Hloop Hc) as [Hcb Hend].
  pose proof (loop_keeps_cache _ _ _ _ _ _ _ _ Hloop) as Hk.
  destruct (bl_end bl) eqn:Hbe; simpl; repeat (split; [done|]).
  - destruct Hend as (new & -> & Hnew & _). done.
  - destruct Hend as (new & -> & Hnew & _). done.
  - destruct Hend as (new & -> & Hnew & _). done.
  - destruct Hend as [_ [[? _]|?]]; auto.
Qed.

End BlockProperties.


(** ** One pass of disassembleBuffer *)

Lemma never_retried_snoc settled log va s :
  never_retried settled (log ++ [(va, s)])
  <-> never_retried settled log ∧ va ∉ settled ∪ settled_by log.
Proof.
  revert settled. induction log as [|[a t] log IH]; intros settled; simpl.
  - unfold settled_by. simpl. set_solver.
  - rewrite IH. unfold settled_by. simpl. set_solver.
Qed.

Lemma settled_by_snoc log va s :
  settled_by (log ++ [(va, s)]) = settled_by log ∪ s.
Proof.
  unfold settled_by. rewrite map_app, union_list_app_L. simpl. set_solver.
Qed.

Lemma dom_block_map (insns : list (rose_addr_t * SgAsmInstruction)) a :
  a ∈ dom (block_map insns) <-> exists i, (a, i) ∈ insns.
Proof.
  unfold block_map. rewrite dom_list_to_map_L, elem_of_list_to_set, list_elem_of_fmap.
  split.
  - intros ([b i] & -> & Hin). by exists i.
  - intros (i & Hin). by exists (a, i).
Qed.

Section PassProperties.

Variable disassembleOne : MemoryMap -> rose_addr_t -> thrown SgAsmInstruction.
Variable map : MemoryMap.

Lemma more_addresses_fields ps :
  ps_disassembler (more_addresses map ps) = ps_disassembler ps
  ∧ ps_insns (more_addresses map ps) = ps_insns ps
  ∧ ps_bad (more_addresses map ps) = ps_bad ps
  ∧ ps_successors (more_addresses map ps) = ps_successors ps
  ∧ ps_icache (more_addresses map ps) = ps_icache ps
  ∧ ps_settled (more_addresses map ps) = ps_settled ps.
Proof. unfold more_addresses. by destruct (_ && _). Qed.

Lemma pass_consistent_more search protection given ps :
  pass_consistent disassembleOne map search protection given ps ->
  pass_consistent disassembleOne map search protection given (more_addresses map ps).
Proof.
  unfold pass_consistent.
  destruct (more_addresses_fields ps) as (-> & -> & -> & _ & -> & _). done.
Qed.

Lemma pass_logged_more settled ps :
  pass_logged settled ps -> pass_logged settled (more_addresses map ps).
Proof.
  unfold pass_logged.
  destruct (more_addresses_fields ps) as (_ & -> & -> & _ & _ & ->). done.
Qed.

Lemma already_settled_false ps va :
  already_settled ps va = false -> va ∉ dom (ps_insns ps) ∪ dom_bad (ps_bad ps).
Proof.
  unfold already_settled, bad_has, dom_bad.
  intros [Hi Hb]%orb_false_elim.
  apply bool_decide_eq_false in Hi.
  rewrite not_elem_of_union, !elem_of_dom. split; [done|].
  destruct (ps_bad ps) as [b|]; [|set_solver].
  apply bool_decide_eq_false in Hb. by rewrite elem_of_dom.
Qed.

(** An iteration keeps the maps in agreement with the decoder. *)
Lemma pass_step_consistent fuel search protection given ps ps' :
  pass_step disassembleOne fuel map ps = Some ps' ->
  pass_consistent disassembleOne map search protection given ps ->
  pass_consistent disassembleOne map search protection given ps'.
Proof.
  unfold pass_step. intros Hstep Hinv.
  destruct (set_min (ps_worklist ps)) as [va|]; [|by injection Hstep as <-].
  destruct (already_settled ps va).
  { injection Hstep as <-. by apply pass_consistent_more. }
  destruct (map_exists map (p_protection (ps_disassembler ps)) va) eqn:Hm; simpl in Hstep.
  2: { injection Hstep as <-. by apply pass_consistent_more. }
  destruct (disassembleBlock _ _ _ _ _ _ _) as [br|] eqn:Hrun; [|done].
  injection Hstep as <-. apply pass_consistent_more.
  destruct Hinv as (Hs & Hp & Hc & Hi & Hb).
  destruct (disassembleBlock_doomed disassembleOne map _ _ _ _ _ _ Hrun Hc)
    as (Hc' & Hk & Hs' & Hp' & Hres).
  destruct (Hk ltac:(done)) as [c' Hbc]. rewrite Hbc in Hc'. simpl in Hc'.
  rewrite Hs, Hp in Hres. rewrite Hp in Hm.
  unfold pass_consistent. simpl. rewrite Hbc. simpl.
  split; [congruence|]. split; [congruence|]. split; [done|].
  destruct (br_result br) as [bb|e].
  - split; [|done]. intros a [Ha|Ha]%dom_union%elem_of_union; [by apply Hi|].
    apply dom_block_map in Ha as [i Hin]. by eapply Hres.
  - split; [done|]. destruct (ps_bad ps) as [b|]; simpl in *; [|done].
    intros a. rewrite dom_insert_L. intros [->%elem_of_singleton|Ha]%elem_of_union.
    + destruct Hres as [Hres|Hres]; [congruence|right; by right].
    + by apply Hb.
Qed.

(** An iteration keeps the record in step with the maps. *)
Lemma pass_step_logged fuel settled ps ps' :
  pass_step disassembleOne fuel map ps = Some ps' ->
  pass_logged settled ps -> pass_logged settled ps'.
Proof.
  unfold pass_step. intros Hstep Hinv.
  destruct (set_min (ps_worklist ps)) as [va|]; [|by injection Hstep as <-].
  destruct (already_settled ps va) eqn:Hsettled.
  { injection Hstep as <-. by apply pass_logged_more. }
  destruct (map_exists map (p_protection (ps_disassembler ps)) va) eqn:Hm; simpl in Hstep.
  2: { injection Hstep as <-. by apply pass_logged_more. }
  destruct (disassembleBlock _ _ _ _ _ _ _) as [br|] eqn:Hrun; [|done].
  injection Hstep as <-. apply pass_logged_more.
  destruct Hinv as [Hnr Heq]. apply already_settled_false in Hsettled.
  unfold pass_logged. simpl.
  rewrite never_retried_snoc, settled_by_snoc, Heq.
  split; [done|].
  destruct (br_result br) as [bb|e].
  - rewrite dom_union_L. set_solver.
  - destruct (ps_bad ps) as [b|]; simpl; [|set_solver].
    rewrite dom_insert_L. set_solver.
Qed.

Lemma pass_loop_consistent n fuel search protection given :
  forall ps ps',
    pass_loop disassembleOne n fuel map ps = Some ps' ->
    pass_consistent disassembleOne map search protection given ps ->
    pass_consistent disassembleOne map search protection given ps'.
Proof.
  induction n as [|n IH]; intros ps ps' Hloop Hc; simpl in Hloop.
  - destruct (bool_decide _); [by injection Hloop as <-|done].
  - destruct (bool_decide _); [by injection Hloop as <-|].
    destruct (pass_step disassembleOne fuel map ps) as [ps1|] eqn:Hstep; [|done].
    eapply IH; [exact Hloop|]. by eapply pass_step_consistent.
Qed.

Lemma pass_loop_logged n fuel settled :
  forall ps ps',
    pass_loop disassembleOne n fuel map ps = Some ps' ->
    pass_logged settled ps -> pass_logged settled ps'.
Proof.
  induction n as [|n IH]; intros ps ps' Hloop Hl; simpl in Hloop.
  - destruct (bool_decide _); [by injection Hloop as <-|done].
  - destruct (bool_decide _); [by injection Hloop as <-|].
    destruct (pass_step disassembleOne fuel map ps) as [ps1|] eqn:Hstep; [|done].
    eapply IH; [exact Hloop|]. by eapply pass_step_logged.
Qed.

(** A call of disassembleBlock without a cache that throws was started
    outside the map or at a doomed address. *)
Lemma attempt_fails_doomed d va :
  attempt_fails disassembleOne d map va ->
  map_exists map (p_protection d) va = false
  ∨ doomed disassembleOne map (p_search d) (p_protection d) va.
Proof.
  intros (fuel & br & e & Hrun & Hres).
  destruct (disassembleBlock_doomed disassembleOne map _ _ _ _ _ _ Hrun I)
    as (_ & _ & _ & _ & Hd).
  by rewrite Hres in Hd.
Qed.

(** C4, as the engine has it, for a pass that completes and whatever BadMap
    it was handed.  Its record shows that no attempt was made at an address
    that the InstructionMap or the BadMap already held, and the two maps
    hold what the pass was handed and what the recorded attempts settled.
    An address is in both maps only if the BadMap handed to the pass already
    held it and no attempt at it fails; so no address is in both maps when
    that BadMap is absent or empty or holds only addresses where an attempt
    fails. *)
Theorem settled_once (fuel : nat) (d : Disassembler) (workset : gset N)
    (successors : option (gset N)) (bad : option (gmap N Exception)) (ps : Pass) :
  disassembleBuffer disassembleOne fuel d map workset successors bad = Some ps ->
  never_retried (dom_bad bad) (ps_settled ps)
  ∧ dom_bad bad ∪ settled_by (ps_settled ps) = dom (ps_insns ps) ∪ dom_bad (ps_bad ps)
  ∧ (forall a, a ∈ dom (ps_insns ps) -> a ∈ dom_bad (ps_bad ps) ->
       a ∈ dom_bad bad ∧ ¬ attempt_fails disassembleOne d map a)
  ∧ ((forall a, a ∈ dom_bad bad -> attempt_fails disassembleOne d map a) ->
     forall a, ¬ (a ∈ dom (ps_insns ps) ∧ a ∈ dom_bad (ps_bad ps))).
Proof.
  unfold disassembleBuffer. intros Hrun.
  assert (pass_consistent disassembleOne map (p_search d) (p_protection d) (dom_bad bad)
            (pass_start d map workset successors bad)) as Hc.
  { unfold pass_start. apply pass_consistent_more. unfold pass_consistent. simpl.
    split; [done|]. split; [done|].
    split; [intros a; by rewrite lookup_empty|].
    split.
    - intros a. by rewrite dom_empty_L.
    - intros a Ha. by left. }
  assert (pass_logged (dom_bad bad) (pass_start d map workset successors bad)) as Hl.
  { unfold pass_start. apply pass_logged_more. unfold pass_logged, settled_by. simpl.
    split; [done|]. rewrite dom_empty_L. set_solver. }
  destruct (pass_loop_logged _ _ _ _ _ Hrun Hl) as [Hnr Heq].
  pose proof (pass_loop_consistent _ _ _ _ _ _ _ Hrun Hc) as (_ & _ & _ & Hins & Hbd).
  assert (forall a, a ∈ dom (ps_insns ps) -> a ∈ dom_bad (ps_bad ps) ->
            a ∈ dom_bad bad ∧ ¬ attempt_fails disassembleOne d map a) as Hboth.
  { intros a Hi Hb. destruct (Hins a Hi) as [Hm Hnd]. split.
    - destruct (Hbd a Hb) as [?|[?|?]]; [done|congruence|done].
    - intros Hfail. destruct (attempt_fails_doomed d a Hfail); [congruence|done]. }
  split; [done|]. split; [done|]. split; [done|].
  intros Hbad a [Hi Hb]. destruct (Hboth a Hi Hb) as [Hgiven Hnf]. by apply Hnf, Hbad.
Qed.

End PassProperties.

(** C4, refuted as worded: a pass over the bytes 90 90 C3 at 0x1000 that
    starts at 0x1000 with SEARCH_FOLLOWING and is handed a BadMap that holds
    0x1001.  The block decoded at 0x1000 runs through the no-op at 0x1001,
    so when the pass completes 0x1001 is in the InstructionMap and still in
    the BadMap. *)
Lemma settled_once_claim_fails :
  ¬ settled_once_claim disassembleOne_x86 20 (engine SEARCH_FOLLOWING)
      nops_and_return {[ 0x1000 ]} (Some ∅) (Some bad_0x1001).
Proof.
  unfold settled_once_claim. intros Hclaim.
  destruct (disassembleBuffer disassembleOne_x86 20 (engine SEARCH_FOLLOWING)
              nops_and_return {[ 0x1000 ]} (Some ∅) (Some bad_0x1001)) as [ps|] eqn:Hrun;
    [|by vm_compute in Hrun].
  destruct (Hclaim ps eq_refl) as [_ Hdisjoint].
  vm_compute in Hrun. injection Hrun as Hps.
  apply (Hdisjoint 0x1001). rewrite <- Hps. split.
  - apply elem_of_dom. vm_compute. eexists. reflexivity.
  - apply (elem_of_dom (M := gmap N)). vm_compute. eexists. reflexivity.
Qed.

(* ===================================================================== *)
(** * The scenarios of the specification *)

(** The buffer 90 90 C3 at 0x1000, searched with SEARCH_FOLLOWING from
    0x1000: the three instructions are found and nothing fails. *)
Example scenario_two_nops_and_return :
  let pass := disassembleBuffer disassembleOne_x86 20 (engine SEARCH_FOLLOWING)
                (buffer_at_0x1000 [0x90; 0x90; 0xC3]) {[ 0x1000 ]} (Some ∅) (Some ∅) in
  (fun ps => dom (ps_insns ps)) <$> pass = Some {[ 0x1000; 0x1001; 0x1002 ]}
  ∧ ps_bad <$> pass = Some (Some ∅)
  ∧ (fun ps => insn_successors <$> ps_insns ps !! 0x1002) <$> pass = Some (Some ∅).
Proof. vm_compute. repeat split; reflexivity. Qed.

(** The truncated buffer with SEARCH_DEADEND clear: the call throws an
    exception bound to 0x1002 and returns no block. *)
Example scenario_truncated_dead_end_off :
  (fun br => (br_result br, br_successors br))
    <$> disassembleBlock disassembleOne_x86 10 (engine SEARCH_FOLLOWING) truncated_buffer
          0x1000 (Some ∅) None
  = Some (Throws short_read_at_0x1002, Some ∅).
Proof. vm_compute. reflexivity. Qed.

(** The truncated buffer with SEARCH_DEADEND set: the block holds the two
    no-ops and 0x1002 is added to the successors. *)
Example scenario_truncated_dead_end_on :
  (fun br => (br_result br, br_successors br))
    <$> disassembleBlock disassembleOne_x86 10 (engine SEARCH_DEADEND) truncated_buffer
          0x1000 (Some ∅) None
  = Some (Ok two_nops, Some {[ 0x1002 ]}).
Proof. vm_compute. reflexivity. Qed.

(** Erasing the entry address of a function is rejected and the basic block
    addresses stay as they were. *)
Example scenario_erase_entry :
  aborted (eraseBasicBlock 0x1000 main_function).1 = true
  ∧ basicBlockAddresses (eraseBasicBlock 0x1000 main_function).2 = {[ 0x1000 ]}.
Proof. vm_compute. split; reflexivity. Qed.

(** Inserting the same data block twice into a thawed function: the first
    call returns true and adds it, the second returns false and the list
    keeps its length. *)
Example scenario_insert_data_block_twice :
  let first := insertDataBlock (Some data_block) main_function in
  let second := insertDataBlock (Some data_block) first.2 in
  first.1 = Returns true
  ∧ dataBlocks first.2 = [data_block]
  ∧ second.1 = Returns false
  ∧ length (dataBlocks second.2) = length (dataBlocks first.2).
Proof. vm_compute. repeat split; reflexivity. Qed.

(* ===================================================================== *)
(** * The properties at concrete inputs *)

Lemma frozen_rejects_structural_mutation_witness :
  isFrozen frozen_function = true
  ∧ aborted (insertBasicBlock 0x2000 frozen_function).1 = true
  ∧ aborted (eraseBasicBlock 0x1000 frozen_function).1 = true
  ∧ aborted (insertDataBlock (Some data_block) frozen_function).1 = true
  ∧ aborted (eraseDataBlock (Some data_block) frozen_function).1 = true
  ∧ basicBlockAddresses (insertBasicBlock 0x2000 frozen_function).2
    = basicBlockAddresses frozen_function
  ∧ dataBlocks (insertDataBlock (Some data_block) frozen_function).2
    = dataBlocks frozen_function.
Proof.
  split; [reflexivity|].
  pose proof (frozen_rejects_structural_mutation frozen_function 0x2000 (Some data_block) eq_refl)
    as ((Hi & Hib & _) & _ & (Hd & _ & Hdd) & (He & _)).
  pose proof (frozen_rejects_structural_mutation frozen_function 0x1000 None eq_refl)
    as (_ & (Heb & _) & _).
  repeat split; assumption.
Defined.

Lemma insertBasicBlock_thawed_witness :
  isFrozen main_function = false
  ∧ insertBasicBlock 0x1000 main_function = (Returns false, main_function)
  ∧ basicBlockAddresses (insertBasicBlock 0x2000 main_function).2
    = {[ 0x2000 ]} ∪ basicBlockAddresses main_function
  ∧ isNoop (insertBasicBlock 0x2000 main_function).2 = None.
Proof.
  split; [reflexivity|].
  destruct (insertBasicBlock_thawed main_function 0x1000 eq_refl) as [Howned _].
  destruct (insertBasicBlock_thawed main_function 0x2000 eq_refl) as [_ Hnew].
  split.
  - apply Howned. unfold main_function, instance, Function_ctor, basicBlockAddresses. simpl.
    apply elem_of_union_l, elem_of_singleton. reflexivity.
  - apply Hnew. unfold main_function, instance, Function_ctor, basicBlockAddresses. simpl.
    intros [Hin|Hin]%elem_of_union.
    + apply elem_of_singleton in Hin. discriminate Hin.
    + by apply not_elem_of_empty in Hin.
Defined.

Lemma frozen_allows_nonstructural_setters_witness :
  isFrozen frozen_function = true
  ∧ 0x80 < 2 ^ 32
  ∧ name (name_set "start" frozen_function).2 = "start"
  ∧ N.land (reasons (insertReasons 0x80 frozen_function).2) 0x80 = 0x80
  ∧ N.land (reasons (eraseReasons 0x80 frozen_function).2) 0x80 = 0
  ∧ basicBlockAddresses (eraseReasons 0x80 frozen_function).2
    = basicBlockAddresses frozen_function.
Proof.
  split; [reflexivity|]. split; [reflexivity|].
  pose proof (frozen_allows_nonstructural_setters frozen_function "start" 0x80 eq_refl eq_refl)
    as ((_ & Hn & _) & _ & _ & (_ & Hi & _) & (_ & He & Hb & _)).
  repeat split; assumption.
Defined.

Lemma disassembleBlock_decode_failure_witness :
  straight_line disassembleOne_x86 truncated_buffer EXECUTABLE 0x1000
    two_nops 0x1002
  ∧ disassembleOne_x86 truncated_buffer 0x1002 = Throws short_read_at_0x1002
  ∧ (exists br,
       disassembleBlock disassembleOne_x86 10 (engine SEARCH_DEADEND) truncated_buffer
         0x1000 (Some ∅) None = Some br
       ∧ br_result br = Ok two_nops
       ∧ br_successors br = Some (∅ ∪ {[ 0x1002 ]}))
  ∧ (exists br e',
       disassembleBlock disassembleOne_x86 10 (engine SEARCH_FOLLOWING) truncated_buffer
         0x1000 (Some ∅) None = Some br
       ∧ br_result br = Throws e' ∧ ip e' = 0x1002
       ∧ br_successors br = Some ∅).
Proof.
  assert (straight_line disassembleOne_x86 truncated_buffer EXECUTABLE 0x1000
            two_nops 0x1002) as Hline.
  { simpl. repeat split; vm_compute; reflexivity. }
  assert (disassembleOne_x86 truncated_buffer 0x1002 = Throws short_read_at_0x1002) as Hfail
    by (vm_compute; reflexivity).
  assert (two_nops ≠ []) as Hne by discriminate.
  assert (length two_nops < 10)%nat as Hfuel by (simpl; lia).
  split; [exact Hline|]. split; [exact Hfail|]. split.
  - destruct (disassembleBlock_decode_failure disassembleOne_x86 truncated_buffer 10
                (engine SEARCH_DEADEND) 0x1000 two_nops 0x1002 short_read_at_0x1002 (Some ∅)
                None Hne Hline eq_refl Hfail eq_refl I Hfuel)
      as (br & Hrun & Hset & _).
    destruct (Hset eq_refl) as (Hres & _ & Hsucc).
    exists br. repeat split; assumption.
  - destruct (disassembleBlock_decode_failure disassembleOne_x86 truncated_buffer 10
                (engine SEARCH_FOLLOWING) 0x1000 two_nops 0x1002 short_read_at_0x1002 (Some ∅)
                None Hne Hline eq_refl Hfail eq_refl I Hfuel)
      as (br & Hrun & _ & Hclear).
    destruct (Hclear eq_refl) as ((e' & Hres & Hip) & Hsucc).
    exists br, e'. repeat split; assumption.
Defined.


Lemma settled_once_witness :
  (forall a, a ∈ dom_bad (Some bad_0x1002) ->
     attempt_fails disassembleOne_x86 (engine (N.lor SEARCH_FOLLOWING SEARCH_DEADEND))
       truncated_buffer a)
  ∧ exists ps,
      disassembleBuffer disassembleOne_x86 20 (engine (N.lor SEARCH_FOLLOWING SEARCH_DEADEND))
        truncated_buffer {[ 0x1000 ]} (Some ∅) (Some bad_0x1002) = Some ps
      ∧ List.map fst (ps_settled ps) = [0x1000]
      ∧ never_retried (dom_bad (Some bad_0x1002)) (ps_settled ps)
      ∧ dom_bad (Some bad_0x1002) ∪ settled_by (ps_settled ps)
        = dom (ps_insns ps) ∪ dom_bad (ps_bad ps)
      ∧ (forall a, ¬ (a ∈ dom (ps_insns ps) ∧ a ∈ dom_bad (ps_bad ps))).
Proof.
  assert (forall a, a ∈ dom_bad (Some bad_0x1002) ->
            attempt_fails disassembleOne_x86 (engine (N.lor SEARCH_FOLLOWING SEARCH_DEADEND))
              truncated_buffer a) as Hbad.
  { intros a Ha. simpl in Ha. unfold bad_0x1002 in Ha.
    rewrite dom_singleton_L in Ha. apply elem_of_singleton in Ha. subst a.
    destruct (disassembleBlock disassembleOne_x86 5
                (engine (N.lor SEARCH_FOLLOWING SEARCH_DEADEND)) truncated_buffer 0x1002
                None None) as [br|] eqn:Hrun; [|vm_compute in Hrun; discriminate].
    pose proof Hrun as Hbr. vm_compute in Hbr. injection Hbr as Hbr.
    destruct (br_result br) as [insns|e] eqn:Hres; [rewrite <- Hbr in Hres; discriminate|].
    exists 5%nat, br, e. split; [exact Hrun|exact Hres]. }
  split; [exact Hbad|].
  destruct (disassembleBuffer disassembleOne_x86 20
              (engine (N.lor SEARCH_FOLLOWING SEARCH_DEADEND)) truncated_buffer {[ 0x1000 ]}
              (Some ∅) (Some bad_0x1002)) as [ps|] eqn:Hrun; [|vm_compute in Hrun; discriminate].
  pose proof Hrun as Hps. vm_compute in Hps. injection Hps as Hps.
  assert (List.map fst (ps_settled ps) = [0x1000]) as Hlog by (rewrite <- Hps; reflexivity).
  destruct (settled_once disassembleOne_x86 truncated_buffer 20
              (engine (N.lor SEARCH_FOLLOWING SEARCH_DEADEND)) {[ 0x1000 ]} (Some ∅)
              (Some bad_0x1002) ps Hrun) as (Hnr & Heq & _ & Hdisjoint).
  exists ps. split; [reflexivity|]. split; [exact Hlog|]. split; [exact Hnr|].
  split; [exact Heq|]. exact (Hdisjoint Hbad).
Defined.

(* ===================================================================== *)
(** * Further properties of Partitioner2::Function *)

Section FunctionExtras.

Context {CCAnalysis SDAnalysis SValue : Type}.
Context (ccAnalysis_default : CCAnalysis) (stackDeltaAnalysis_default : SDAnalysis).

Local Abbreviation Fn := (Function CCAnalysis SDAnalysis SValue).

Ltac run_body :=
  unfold mbind, method_bind, mret, method_ret, get, modify,
    ASSERT_forbid, ASSERT_forbid2, clearCache in *.

(** What the two mutators compute on a thawed function. *)
Lemma insertBasicBlock_value (f : Fn) a :
  isFrozen_ f = false ->
  insertBasicBlock a f
  = (Returns (negb (bool_decide (a ∈ bblockVas_ f))),
     if bool_decide (a ∈ bblockVas_ f) then f
     else set_isNoop_ None (set_bblockVas_ ({[ a ]} ∪ bblockVas_ f) f)).
Proof.
  intros Hth. unfold insertBasicBlock. run_body. rewrite Hth. simpl.
  destruct (bool_decide (a ∈ bblockVas_ f)) eqn:Ha; simpl; [|done].
  apply bool_decide_eq_true in Ha.
  replace ({[a]} ∪ bblockVas_ f) with (bblockVas_ f) by set_solver.
  by destruct f.
Qed.

Lemma eraseBasicBlock_value (f : Fn) a :
  isFrozen_ f = false -> a ≠ entryVa_ f ->
  eraseBasicBlock a f
  = (Returns tt, set_bblockVas_ (bblockVas_ f ∖ {[ a ]}) (set_isNoop_ None f)).
Proof.
  intros Hth Hne. unfold eraseBasicBlock. run_body. rewrite Hth. simpl.
  by destruct (N.eqb_spec a (entryVa_ f)).
Qed.

(** The function insertBasicBlock leaves, field by field. *)
Lemma insertBasicBlock_state (f : Fn) a :
  isFrozen_ f = false ->
  (insertBasicBlock a f).2
  = mkFunction (entryVa_ f) (name_ f) (comment_ f) (reasons_ f) ({[ a ]} ∪ bblockVas_ f)
      (dblocks_ f) (isFrozen_ f) (ccAnalysis_ f) (stackDeltaAnalysis_ f)
      (stackDeltaOverride_ f)
      (if bool_decide (a ∈ bblockVas_ f) then isNoop_ f else None).
Proof.
  intros Hth. rewrite insertBasicBlock_value by done. simpl.
  case_bool_decide as Ha; [|done].
  replace ({[a]} ∪ bblockVas_ f) with (bblockVas_ f) by set_solver.
  by destruct f.
Qed.

(** X1: insertBasicBlock aborts exactly on a frozen function and
    eraseBasicBlock exactly on a frozen function or for the entry address;
    a call that aborts leaves the whole object as it was. *)
Theorem structural_mutators_abort_exactly (f : Fn) (a : rose_addr_t) :
  aborted (insertBasicBlock a f).1 = isFrozen f
  ∧ aborted (eraseBasicBlock a f).1 = isFrozen f || (a =? address f)
  ∧ (aborted (insertBasicBlock a f).1 = true -> (insertBasicBlock a f).2 = f)
  ∧ (aborted (eraseBasicBlock a f).1 = true -> (eraseBasicBlock a f).2 = f).
Proof.
  unfold isFrozen, address, insertBasicBlock, eraseBasicBlock. run_body.
  destruct (isFrozen_ f); simpl; [done|].
  destruct (bool_decide (a ∈ bblockVas_ f)), (a =? entryVa_ f); simpl;
    repeat split; intros; done.
Qed.

(** X2: after insertBasicBlock on a thawed function the address is owned,
    whatever the call returned, and every other address is owned exactly if
    it was owned before. *)
Theorem insertBasicBlock_then_owns (f : Fn) (a : rose_addr_t) :
  isFrozen f = false ->
  ownsBasicBlock (insertBasicBlock a f).2 a = true
  ∧ (forall b, b ≠ a ->
       ownsBasicBlock (insertBasicBlock a f).2 b = ownsBasicBlock f b).
Proof.
  unfold isFrozen. intros Hth. rewrite insertBasicBlock_value by done.
  unfold ownsBasicBlock. simpl.
  destruct (bool_decide (a ∈ bblockVas_ f)) eqn:Ha; simpl.
  - split; [done|]. done.
  - split; [apply bool_decide_eq_true; set_solver|].
    intros b Hb. apply bool_decide_ext. set_solver.
Qed.

(** X3: after eraseBasicBlock on a thawed function, for an address other
    than the entry, the address is not owned, and every other address is
    owned exactly if it was owned before. *)
Theorem eraseBasicBlock_then_not_owned (f : Fn) (a : rose_addr_t) :
  isFrozen f = false -> a ≠ address f ->
  ownsBasicBlock (eraseBasicBlock a f).2 a = false
  ∧ (forall b, b ≠ a ->
       ownsBasicBlock (eraseBasicBlock a f).2 b = ownsBasicBlock f b).
Proof.
  unfold isFrozen, address. intros Hth Hne. rewrite eraseBasicBlock_value by done.
  unfold ownsBasicBlock. simpl. split.
  - apply bool_decide_eq_false. set_solver.
  - intros b Hb. apply bool_decide_ext. set_solver.
Qed.

(** X4: on a thawed function, inserting an address that is not owned and
    erasing it again gives back the function with its cache cleared, and so
    does erasing an owned address other than the entry and inserting it
    again. *)
Theorem insert_erase_round_trip (f : Fn) (a : rose_addr_t) :
  isFrozen f = false -> a ≠ address f ->
  (a ∉ basicBlockAddresses f ->
     eraseBasicBlock a (insertBasicBlock a f).2 = (Returns tt, set_isNoop_ None f))
  ∧ (a ∈ basicBlockAddresses f ->
       insertBasicBlock a (eraseBasicBlock a f).2 = (Returns true, set_isNoop_ None f)).
Proof.
  unfold isFrozen, address, basicBlockAddresses. intros Hth Hne. split; intros Ha.
  - rewrite insertBasicBlock_value by done.
    rewrite bool_decide_eq_false_2 by done.
    rewrite eraseBasicBlock_value by done. simpl.
    replace (({[a]} ∪ bblockVas_ f) ∖ {[a]}) with (bblockVas_ f) by set_solver.
    by destruct f.
  - rewrite eraseBasicBlock_value by done.
    rewrite insertBasicBlock_value by done. simpl.
    rewrite bool_decide_eq_false_2 by set_solver. simpl.
    replace ({[a]} ∪ bblockVas_ f ∖ {[a]}) with (bblockVas_ f); [by destruct f|].
    apply set_eq. intros x. rewrite elem_of_union, elem_of_difference, elem_of_singleton.
    destruct (decide (x = a)) as [->|]; naive_solver.
Qed.

(** X5: on a thawed function nBasicBlocks grows by one exactly when
    insertBasicBlock returns true, and shrinks by one exactly when
    eraseBasicBlock is given an owned address other than the entry. *)
Theorem nBasicBlocks_counts (f : Fn) (a : rose_addr_t) :
  isFrozen f = false ->
  (insertBasicBlock a f).1 = Returns (negb (ownsBasicBlock f a))
  ∧ nBasicBlocks (insertBasicBlock a f).2
    = (nBasicBlocks f + (if ownsBasicBlock f a then 0 else 1))%nat
  ∧ (a ≠ address f ->
       (nBasicBlocks (eraseBasicBlock a f).2 + (if ownsBasicBlock f a then 1 else 0))%nat
       = nBasicBlocks f).
Proof.
  unfold isFrozen, address, nBasicBlocks, ownsBasicBlock. intros Hth.
  rewrite insertBasicBlock_value by done. simpl.
  split; [done|]. split.
  - destruct (bool_decide (a ∈ bblockVas_ f)) eqn:Ha; simpl; [lia|].
    apply bool_decide_eq_false in Ha.
    rewrite size_union by set_solver. rewrite size_singleton. lia.
  - intros Hne. rewrite eraseBasicBlock_value by done. simpl.
    destruct (bool_decide (a ∈ bblockVas_ f)) eqn:Ha.
    + apply bool_decide_eq_true in Ha.
      rewrite size_difference by set_solver. rewrite size_singleton.
      assert (size (bblockVas_ f) ≠ 0%nat) by (apply size_non_empty_iff; set_solver). lia.
    + apply bool_decide_eq_false in Ha.
      replace (bblockVas_ f ∖ {[a]}) with (bblockVas_ f) by set_solver. lia.
Qed.

(** X6: on a thawed function a second insertBasicBlock of the same address
    returns false and changes nothing, and two insertions in either order
    leave the same function. *)
Theorem insertBasicBlock_idempotent_commutes (f : Fn) (a b : rose_addr_t) :
  isFrozen f = false ->
  insertBasicBlock a (insertBasicBlock a f).2 = (Returns false, (insertBasicBlock a f).2)
  ∧ (insertBasicBlock b (insertBasicBlock a f).2).2
    = (insertBasicBlock a (insertBasicBlock b f).2).2.
Proof.
  unfold isFrozen. intros Hth.
  assert (forall c, isFrozen_ (insertBasicBlock c f).2 = false) as Hth'.
  { intros c. rewrite insertBasicBlock_value by done. simpl. by destruct (bool_decide _). }
  split.
  - rewrite (insertBasicBlock_value (insertBasicBlock a f).2) by done.
    rewrite bool_decide_eq_true_2; [done|].
    rewrite insertBasicBlock_value by done. simpl.
    destruct (bool_decide (a ∈ bblockVas_ f)) eqn:Ha; simpl; [|set_solver].
    by apply bool_decide_eq_true in Ha.
  - rewrite (insertBasicBlock_state (insertBasicBlock a f).2),
      (insertBasicBlock_state (insertBasicBlock b f).2) by done.
    rewrite !insertBasicBlock_state by done. simpl.
    f_equal; [set_solver|].
    repeat case_bool_decide; try done; set_solver.
Qed.

(** ** Sequences of calls *)

Lemma perform_insert (f : Fn) va :
  (perform (CallInsertBasicBlock va) f).2 = (insertBasicBlock va f).2
  ∧ aborted (perform (CallInsertBasicBlock va) f).1 = aborted (insertBasicBlock va f).1.
Proof.
  simpl. unfold mbind, method_bind. by destruct (insertBasicBlock va f) as [[b|msg] f'].
Qed.

Lemma insertBasicBlock_any (f : Fn) a :
  (insertBasicBlock a f).2
  = if isFrozen_ f then f
    else mkFunction (entryVa_ f) (name_ f) (comment_ f) (reasons_ f) ({[ a ]} ∪ bblockVas_ f)
           (dblocks_ f) (isFrozen_ f) (ccAnalysis_ f) (stackDeltaAnalysis_ f)
           (stackDeltaOverride_ f)
           (if bool_decide (a ∈ bblockVas_ f) then isNoop_ f else None).
Proof.
  destruct (isFrozen_ f) eqn:Hfr.
  - by rewrite insertBasicBlock_frozen.
  - rewrite insertBasicBlock_state by done. by rewrite Hfr.
Qed.

Lemma eraseBasicBlock_any (f : Fn) a :
  (eraseBasicBlock a f).2
  = if isFrozen_ f || (a =? entryVa_ f) then f
    else set_bblockVas_ (bblockVas_ f ∖ {[ a ]}) (set_isNoop_ None f).
Proof.
  unfold eraseBasicBlock. run_body.
  destruct (isFrozen_ f); simpl; [done|]. by destruct (a =? entryVa_ f).
Qed.

Lemma run_cons (c : call) (cs : list call) (f : Fn) :
  run (c :: cs) f
  = match perform c f with
    | (Returns _, f') => run cs f'
    | (Aborts msg, f') => (Aborts msg, f')
    end.
Proof. simpl. unfold mbind, method_bind. by destruct (perform c f) as [[[]|msg] f']. Qed.

(** An invariant that every call keeps holds after a sequence of calls. *)
Lemma run_invariant (allowed : call -> bool) (P : Fn -> Prop) :
  (forall c f, allowed c = true -> P f -> P (perform c f).2) ->
  forall cs f, forallb allowed cs = true -> P f -> P (run cs f).2.
Proof.
  intros Hstep. induction cs as [|c cs IH]; intros f Hall HP; [done|].
  simpl in Hall. apply andb_prop in Hall as [Hc Hcs].
  rewrite run_cons. pose proof (Hstep c f Hc HP) as HP'.
  destruct (perform c f) as [[[]|msg] f']; simpl in *; [by apply IH|done].
Qed.

(** X7: the entry address of a function is the same after any sequence of
    calls whose bodies Function.h gives. *)
Theorem address_never_changes (cs : list call) (f : Fn) :
  forallb in_header cs = true -> address (run cs f).2 = address f.
Proof.
  intros Hall. unfold address.
  apply (run_invariant in_header (fun g => entryVa_ g = entryVa_ f)); [|done|done].
  intros c g Hc Hg. destruct c; simpl in *; try done.
  - destruct (perform_insert g va) as [Hst _]. simpl in Hst. rewrite Hst, insertBasicBlock_any.
    by destruct (isFrozen_ g).
  - rewrite eraseBasicBlock_any. by destruct (_ || _).
Qed.

(** X8: a function owns one basic block when it is constructed and at least
    one after any sequence of calls whose bodies Function.h gives. *)
Theorem nBasicBlocks_positive (entryVa : rose_addr_t) (nm : string) (rs : N)
    (cs : list call) :
  forallb in_header cs = true ->
  let f0 : Fn := instance ccAnalysis_default stackDeltaAnalysis_default entryVa nm rs in
  nBasicBlocks f0 = 1%nat ∧ (1 <= nBasicBlocks (run cs f0).2)%nat.
Proof.
  intros Hall f0. split.
  - unfold nBasicBlocks, f0, instance, Function_ctor.
    cbn [bblockVas_ set_bblockVas_].
    rewrite union_empty_r_L. apply size_singleton.
  - assert (entry_owned (run cs f0).2) as Hown.
    { apply (run_invariant in_header entry_owned); [|done|].
      - intros c g Hc Hg. destruct c; simpl in *; try done.
        + destruct (perform_insert g va) as [Hst _]. simpl in Hst. rewrite Hst.
          by apply insertBasicBlock_entry_owned.
        + by apply eraseBasicBlock_entry_owned.
      - apply instance_entry_owned. }
    unfold entry_owned, basicBlockAddresses in Hown. unfold nBasicBlocks.
    assert (size (bblockVas_ (run cs f0).2) ≠ 0%nat); [|lia].
    apply size_non_empty_iff. set_solver.
Qed.

(** X9: over a sequence of calls that does not store a no-op result, a
    cached result that is there at the end was there at the start and the
    basic block addresses are the ones it was computed for. *)
Theorem cached_noop_outlives_no_change (cs : list call) (f : Fn) (b : bool) :
  forallb (fun c => in_header c && negb (stores_noop c)) cs = true ->
  isNoop (run cs f).2 = Some b ->
  isNoop f = Some b ∧ basicBlockAddresses (run cs f).2 = basicBlockAddresses f.
Proof.
  unfold isNoop, basicBlockAddresses. intros Hall.
  apply (run_invariant (fun c => in_header c && negb (stores_noop c))
           (fun g => isNoop_ g = Some b -> isNoop_ f = Some b ∧ bblockVas_ g = bblockVas_ f));
    [|done|done].
  intros c g Hc Hg. destruct c; simpl in *; try done.
  - destruct (perform_insert g va) as [Hst _]. simpl in Hst. rewrite Hst, insertBasicBlock_any.
    destruct (isFrozen_ g); [done|]. simpl.
    case_bool_decide as Hva; [|done].
    intros Hn. destruct (Hg Hn) as [? <-]. split; [done|]. set_solver.
  - rewrite eraseBasicBlock_any. by destruct (_ || _).
Qed.

(** X10: on a frozen function, a sequence of calls whose bodies Function.h
    gives and that does not thaw it aborts exactly if it holds an
    insertBasicBlock or eraseBasicBlock call; the function stays frozen and
    keeps its basic block addresses. *)
Theorem frozen_sequence (cs : list call) (f : Fn) :
  isFrozen f = true ->
  forallb (fun c => in_header c && negb (is_thaw c)) cs = true ->
  aborted (run cs f).1 = existsb is_structural cs
  ∧ isFrozen (run cs f).2 = true
  ∧ basicBlockAddresses (run cs f).2 = basicBlockAddresses f.
Proof.
  unfold isFrozen, basicBlockAddresses. revert f.
  induction cs as [|c cs IH]; intros f Hfr Hall; [done|].
  simpl in Hall. apply andb_prop in Hall as [Hc Hcs].
  rewrite run_cons.
  destruct c; simpl in Hc; try done; cbn [existsb is_structural orb].
  - destruct (perform_insert f va) as [Hst Hab].
    rewrite insertBasicBlock_frozen in Hst, Hab by done.
    destruct (perform (CallInsertBasicBlock va) f) as [[[]|msg] f']; simpl in *; [done|].
    by subst.
  - simpl. by rewrite eraseBasicBlock_frozen.
  - simpl. unfold name_set, modify.
    destruct (IH (set_name_ s f)) as (? & ? & ?); done.
  - simpl. unfold comment_set, modify.
    destruct (IH (set_comment_ s f)) as (? & ? & ?); done.
  - simpl. unfold reasons_set, modify.
    destruct (IH (set_reasons_ r f)) as (? & ? & ?); done.
  - simpl. unfold insertReasons, modify.
    destruct (IH (set_reasons_ (N.lor (reasons_ f) r) f)) as (? & ? & ?); done.
  - simpl. unfold eraseReasons, modify.
    destruct (IH (set_reasons_ (N.land (reasons_ f) (N.lnot r 32)) f)) as (? & ? & ?); done.
  - simpl. unfold isNoop_store, modify.
    destruct (IH (set_isNoop_ (Some b) f)) as (? & ? & ?); done.
  - simpl. unfold freeze, modify.
    destruct (IH (set_isFrozen_ true f)) as (? & ? & ?); done.
Qed.

Lemma perform_blocks (c : call) (f : Fn) (a : rose_addr_t) :
  in_header c = true ->
  (a ∈ bblockVas_ (perform c f).2 -> a ∈ bblockVas_ f ∨ c = CallInsertBasicBlock a)
  ∧ (a ∈ bblockVas_ f -> a ∈ bblockVas_ (perform c f).2 ∨ c = CallEraseBasicBlock a).
Proof.
  intros Hc. destruct c; simpl in *; try done; try (split; by left).
  - destruct (perform_insert f va) as [Hst _]. simpl in Hst. rewrite Hst, insertBasicBlock_any.
    destruct (isFrozen_ f); simpl; [split; by left|].
    split; [|set_solver].
    intros [->%elem_of_singleton|Hin]%elem_of_union; [by right|by left].
  - rewrite eraseBasicBlock_any. destruct (_ || _); simpl; [split; by left|].
    split; [set_solver|].
    intros Hin. destruct (decide (a = va)) as [->|Hne]; [by right|left; set_solver].
Qed.

(** X15: over a sequence of calls whose bodies Function.h gives, an address
    comes to be owned only through an insertBasicBlock call for it and stops
    being owned only through an eraseBasicBlock call for it. *)
Theorem blocks_change_only_by_calls (cs : list call) (f : Fn) (a : rose_addr_t) :
  forallb in_header cs = true ->
  (a ∈ basicBlockAddresses (run cs f).2 ->
     a ∈ basicBlockAddresses f ∨ CallInsertBasicBlock a ∈ cs)
  ∧ (a ∈ basicBlockAddresses f ->
       a ∈ basicBlockAddresses (run cs f).2 ∨ CallEraseBasicBlock a ∈ cs).
Proof.
  unfold basicBlockAddresses. revert f.
  induction cs as [|c cs IH]; intros f Hall; [split; by left|].
  simpl in Hall. apply andb_prop in Hall as [Hc Hcs].
  destruct (perform_blocks c f a Hc) as [Hnew Hold].
  rewrite run_cons.
  destruct (perform c f) as [[[]|msg] g]; simpl in *.
  - destruct (IH g Hcs) as [IHnew IHold]. split.
    + intros [Hin| Hin]%IHnew; [|right; by apply list_elem_of_further].
      destruct (Hnew Hin) as [?| ->]; [by left|right; apply list_elem_of_here].
    + intros [Hin| ->]%Hold; [|right; apply list_elem_of_here].
      destruct (IHold Hin) as [?|?]; [by left|right; by apply list_elem_of_further].
  - split.
    + intros [?| ->]%Hnew; [by left|right; apply list_elem_of_here].
    + intros [?| ->]%Hold; [by left|right; apply list_elem_of_here].
Qed.

Lemma perform_setter_frozen (c : call) (f : Fn) :
  is_setter c = true ->
  perform c (set_isFrozen_ true f)
  = (Returns tt, set_isFrozen_ true (perform c f).2)
  ∧ (perform c f).1 = Returns tt
  ∧ isFrozen_ (perform c f).2 = isFrozen_ f.
Proof. intros Hc. by destruct c. Qed.

(** X16: freezing a thawed function, making any calls that set its name,
    comment, reason bits or cached no-op result, and thawing it leaves the
    function those calls alone leave: nothing is lost while it is frozen. *)
Theorem freeze_setters_thaw (cs : list call) (f : Fn) :
  isFrozen f = false ->
  forallb is_setter cs = true ->
  run (CallFreeze :: cs ++ [CallThaw]) f = run cs f.
Proof.
  unfold isFrozen. intros Hth Hall. rewrite run_cons. simpl perform.
  unfold freeze, modify. revert f Hth.
  induction cs as [|c cs IH]; intros f Hth.
  - simpl. unfold mbind, method_bind, thaw, modify, mret, method_ret. simpl.
    destruct f. simpl in *. by subst.
  - simpl in Hall. apply andb_prop in Hall as [Hc Hcs].
    destruct (perform_setter_frozen c f Hc) as (Hfz & Hret & Hkeep).
    rewrite <- app_comm_cons, !run_cons, Hfz.
    destruct (perform c f) as [[[]|msg] g]; simpl in *; [|done].
    apply IH; [done|congruence].
Qed.

(** ** Reason bits *)

Lemma testbit_above_32 (x n : N) : x < 2 ^ 32 -> 32 <= n -> N.testbit x n = false.
Proof.
  intros Hx Hn. destruct (N.eq_dec x 0) as [->|Hx0]; [apply N.bits_0|].
  apply N.bits_above_log2. apply N.log2_lt_pow2 in Hx; lia.
Qed.

Lemma below_32_by_bits (x : N) : (forall n, 32 <= n -> N.testbit x n = false) -> x < 2 ^ 32.
Proof.
  intros Hbits. destruct (N.eq_dec x 0) as [->|Hx0]; [done|].
  apply N.log2_lt_pow2; [lia|].
  destruct (N.lt_ge_cases (N.log2 x) 32) as [|Hge]; [done|].
  pose proof (N.bit_log2 x Hx0) as Hbit. rewrite Hbits in Hbit; done.
Qed.

Ltac by_bits x r :=
  apply N.bits_inj; intros n;
  repeat rewrite ?N.land_spec, ?N.lor_spec, ?N.ldiff_spec;
  destruct (N.lt_ge_cases n 32) as [Hlow|Hhigh];
  [ rewrite ?N.lnot_spec_low by done
  | rewrite ?N.lnot_spec_high by done;
    rewrite ?(testbit_above_32 x n), ?(testbit_above_32 r n) by done ];
  try (destruct (N.testbit x n), (N.testbit r n); reflexivity).

(** X11: for 32-bit values eraseReasons removes exactly the given bits,
    erasing after inserting the same bits is erasing, inserting after
    erasing them is inserting, and each of the two is idempotent. *)
Theorem reasons_insert_erase_algebra (f : Fn) (r : N) :
  reasons f < 2 ^ 32 -> r < 2 ^ 32 ->
  reasons (eraseReasons r f).2 = N.ldiff (reasons f) r
  ∧ reasons (eraseReasons r (insertReasons r f).2).2 = reasons (eraseReasons r f).2
  ∧ reasons (insertReasons r (eraseReasons r f).2).2 = reasons (insertReasons r f).2
  ∧ reasons (insertReasons r (insertReasons r f).2).2 = reasons (insertReasons r f).2
  ∧ reasons (eraseReasons r (eraseReasons r f).2).2 = reasons (eraseReasons r f).2.
Proof.
  unfold reasons, eraseReasons, insertReasons, modify. simpl.
  generalize (reasons_ f). intros x Hx Hr.
  repeat split; by_bits x r.
Qed.

(** X12: reason bits that fit 32 bits still fit after any sequence of calls
    whose bodies Function.h gives and whose reason arguments fit. *)
Theorem reasons_stay_32_bit (cs : list call) (f : Fn) :
  reasons f < 2 ^ 32 ->
  forallb (fun c => in_header c && reasons_fit c) cs = true ->
  reasons (run cs f).2 < 2 ^ 32.
Proof.
  unfold reasons. intros Hf Hall.
  apply (run_invariant (fun c => in_header c && reasons_fit c)
           (fun g => reasons_ g < 2 ^ 32)); [|done|done].
  intros c g Hc Hg. destruct c; simpl in *; try done.
  - destruct (perform_insert g va) as [Hst _]. simpl in Hst. rewrite Hst, insertBasicBlock_any.
    by destruct (isFrozen_ g).
  - rewrite eraseBasicBlock_any. by destruct (_ || _).
  - by apply N.ltb_lt in Hc.
  - apply N.ltb_lt in Hc. apply below_32_by_bits. intros n Hn.
    by rewrite N.lor_spec, !testbit_above_32.
  - apply below_32_by_bits. intros n Hn.
    by rewrite N.land_spec, (testbit_above_32 (reasons_ g)).
Qed.

End FunctionExtras.

(* ===================================================================== *)
(** * Further properties of the disassembler settings *)

Lemma has_bits_lor_other (mask f g : N) :
  N.land f g = 0 -> has_bits (N.lor mask f) g = has_bits mask g.
Proof.
  intros Hfg. unfold has_bits.
  by rewrite N.land_lor_distr_l, Hfg, N.lor_0_r.
Qed.

Lemma has_bits_lor_self (mask f : N) : f ≠ 0 -> has_bits (N.lor mask f) f = true.
Proof.
  intros Hf. unfold has_bits.
  replace (N.land (N.lor mask f) f) with f; [by apply negb_true_iff, N.eqb_neq|].
  apply N.bits_inj. intros n. rewrite N.land_spec, N.lor_spec.
  by destruct (N.testbit mask n), (N.testbit f n).
Qed.

Lemma has_bits_clear_other (mask f g : N) :
  N.land f g = 0 -> g < 2 ^ 32 ->
  has_bits (N.land mask (N.lnot f 32)) g = has_bits mask g.
Proof.
  intros Hfg Hg. unfold has_bits. f_equal. f_equal.
  apply N.bits_inj. intros n. rewrite !N.land_spec.
  destruct (N.testbit g n) eqn:Hgn; [|by rewrite !andb_false_r].
  assert (n < 32) as Hn.
  { destruct (N.lt_ge_cases n 32) as [|Hge]; [done|].
    rewrite testbit_above_32 in Hgn; done. }
  rewrite N.lnot_spec_low by done.
  assert (N.testbit f n = false) as ->.
  { pose proof (f_equal (fun x => N.testbit x n) Hfg) as Hb. simpl in Hb.
    rewrite N.land_spec, Hgn, andb_true_r in Hb. by rewrite Hb, ?N.bits_0. }
  by rewrite andb_true_r.
Qed.

(** X13: each of the nine heuristics is one bit of the mask, and switching
    one on or off through set_search leaves the test of every other
    heuristic as it was. *)
Theorem search_flags_independent (d : Disassembler) (f g : N) :
  f ∈ search_flags -> g ∈ search_flags -> f ≠ g ->
  let on := set_search (N.lor (get_search d) f) d in
  let off := set_search (N.land (get_search d) (N.lnot f 32)) d in
  (exists k, f = 2 ^ k)
  ∧ has_bits (get_search on) f = true
  ∧ has_bits (get_search on) g = has_bits (get_search d) g
  ∧ has_bits (get_search off) f = false
  ∧ has_bits (get_search off) g = has_bits (get_search d) g.
Proof.
  intros Hf Hg Hne. unfold get_search, set_search. simpl.
  assert (f ≠ 0 ∧ f < 2 ^ 32 ∧ g < 2 ^ 32 ∧ N.land f g = 0 ∧ exists k, f = 2 ^ k)
    as (Hf0 & Hf32 & Hg32 & Hfg & Hpow).
  { unfold search_flags in Hf, Hg.
    repeat (apply elem_of_cons in Hf as [->|Hf]); try (by apply elem_of_nil in Hf);
      (repeat (apply elem_of_cons in Hg as [->|Hg]); try (by apply elem_of_nil in Hg);
       try done;
       (split; [done|]; split; [done|]; split; [done|]; split; [reflexivity|])).
    all: first [ by exists 0 | by exists 1 | by exists 2 | by exists 3 | by exists 4
               | by exists 5 | by exists 6 | by exists 7 | by exists 8 ]. }
  split; [done|].
  split; [by apply has_bits_lor_self|].
  split; [by apply has_bits_lor_other|].
  split; [|by apply has_bits_clear_other].
  unfold has_bits. by rewrite land_lnot32_diag.
Qed.

Lemma configure_snoc d ss s :
  configure d (ss ++ [s]) = apply_setting (configure d ss) s.
Proof. unfold configure. by rewrite foldl_app. Qed.

Lemma last_of_snoc {A} (pick : setting -> option A) ss s :
  last_of pick (ss ++ [s])
  = match pick s with Some v => Some v | None => last_of pick ss end.
Proof.
  unfold last_of. rewrite omap_app. simpl.
  destruct (pick s) as [v|]; [by rewrite last_snoc|by rewrite app_nil_r].
Qed.

(** X14: after any sequence of calls to set_registers, set_partitioner,
    set_search, set_sex and set_protection each getter returns what the last
    call of its setter passed, or what it returned before when there was no
    such call; the word size, the alignment and the instruction counter are
    as before. *)
Theorem configure_last_call_wins (d : Disassembler) (ss : list setting) :
  get_registers (configure d ss) = default (get_registers d) (last_of pick_registers ss)
  ∧ get_partitioner (configure d ss)
    = default (get_partitioner d) (last_of pick_partitioner ss)
  ∧ get_search (configure d ss) = default (get_search d) (last_of pick_search ss)
  ∧ get_sex (configure d ss) = default (get_sex d) (last_of pick_sex ss)
  ∧ get_protection (configure d ss) = default (get_protection d) (last_of pick_protection ss)
  ∧ get_wordsize (configure d ss) = get_wordsize d
  ∧ get_alignment (configure d ss) = get_alignment d
  ∧ get_ndisassembled (configure d ss) = get_ndisassembled d.
Proof.
  induction ss as [|s ss IH] using rev_ind; [done|].
  rewrite configure_snoc, !last_of_snoc.
  destruct IH as (Hr & Hp & Hs & Hx & Ht & Hw & Ha & Hn).
  destruct s; simpl; repeat split; assumption || reflexivity.
Qed.

(* ===================================================================== *)
(** * The further properties at concrete inputs *)

Lemma insertBasicBlock_then_owns_witness :
  isFrozen main_function = false
  ∧ ownsBasicBlock (insertBasicBlock 0x2000 main_function).2 0x2000 = true
  ∧ ownsBasicBlock (insertBasicBlock 0x2000 main_function).2 0x3000
    = ownsBasicBlock main_function 0x3000.
Proof.
  split; [reflexivity|].
  destruct (insertBasicBlock_then_owns main_function 0x2000 eq_refl) as [Hown Hother].
  split; [exact Hown|]. apply Hother. discriminate.
Defined.

Lemma eraseBasicBlock_then_not_owned_witness :
  isFrozen two_block_function = false
  ∧ 0x2000 ≠ address two_block_function
  ∧ ownsBasicBlock two_block_function 0x2000 = true
  ∧ ownsBasicBlock (eraseBasicBlock 0x2000 two_block_function).2 0x2000 = false
  ∧ ownsBasicBlock (eraseBasicBlock 0x2000 two_block_function).2 0x1000
    = ownsBasicBlock two_block_function 0x1000.
Proof.
  assert (isFrozen two_block_function = false) as Hth by (vm_compute; reflexivity).
  assert (0x2000 ≠ address two_block_function) as Hne by (vm_compute; discriminate).
  split; [exact Hth|]. split; [exact Hne|]. split; [vm_compute; reflexivity|].
  destruct (eraseBasicBlock_then_not_owned two_block_function 0x2000 Hth Hne)
    as [Hgone Hother].
  split; [exact Hgone|]. apply Hother. discriminate.
Defined.

Lemma insert_erase_round_trip_witness :
  isFrozen main_function = false
  ∧ 0x2000 ≠ address main_function
  ∧ (0x2000 ∉ basicBlockAddresses main_function)
  ∧ eraseBasicBlock 0x2000 (insertBasicBlock 0x2000 main_function).2
    = (Returns tt, set_isNoop_ None main_function).
Proof.
  assert (0x2000 ≠ address main_function) as Hne by (vm_compute; discriminate).
  assert (0x2000 ∉ basicBlockAddresses main_function) as Hnew.
  { intros Hin. apply (bool_decide_eq_true_2 _) in Hin. vm_compute in Hin. discriminate. }
  split; [reflexivity|]. split; [exact Hne|]. split; [exact Hnew|].
  destruct (insert_erase_round_trip main_function 0x2000 eq_refl Hne) as [Hround _].
  exact (Hround Hnew).
Defined.

Lemma nBasicBlocks_counts_witness :
  isFrozen two_block_function = false
  ∧ nBasicBlocks two_block_function = 2%nat
  ∧ nBasicBlocks (insertBasicBlock 0x3000 two_block_function).2
    = (nBasicBlocks two_block_function
       + (if ownsBasicBlock two_block_function 0x3000 then 0 else 1))%nat
  ∧ (nBasicBlocks (eraseBasicBlock 0x2000 two_block_function).2
     + (if ownsBasicBlock two_block_function 0x2000 then 1 else 0))%nat
    = nBasicBlocks two_block_function.
Proof.
  assert (isFrozen two_block_function = false) as Hth by (vm_compute; reflexivity).
  assert (0x2000 ≠ address two_block_function) as Hne by (vm_compute; discriminate).
  split; [exact Hth|]. split; [vm_compute; reflexivity|].
  destruct (nBasicBlocks_counts two_block_function 0x3000 Hth) as (_ & Hins & _).
  destruct (nBasicBlocks_counts two_block_function 0x2000 Hth) as (_ & _ & Hers).
  split; [exact Hins|exact (Hers Hne)].
Defined.

Lemma insertBasicBlock_idempotent_commutes_witness :
  isFrozen main_function = false
  ∧ insertBasicBlock 0x2000 (insertBasicBlock 0x2000 main_function).2
    = (Returns false, (insertBasicBlock 0x2000 main_function).2)
  ∧ (insertBasicBlock 0x3000 (insertBasicBlock 0x2000 main_function).2).2
    = (insertBasicBlock 0x2000 (insertBasicBlock 0x3000 main_function).2).2.
Proof.
  split; [reflexivity|].
  exact (insertBasicBlock_idempotent_commutes main_function 0x2000 0x3000 eq_refl).
Defined.

Lemma address_never_changes_witness :
  forallb in_header
    [CallInsertBasicBlock 0x2000; CallName "start"; CallFreeze; CallEraseBasicBlock 0x2000]
  = true
  ∧ address (run [CallInsertBasicBlock 0x2000; CallName "start"; CallFreeze;
                  CallEraseBasicBlock 0x2000] main_function).2
    = address main_function.
Proof.
  split; [reflexivity|].
  exact (address_never_changes
           [CallInsertBasicBlock 0x2000; CallName "start"; CallFreeze;
            CallEraseBasicBlock 0x2000] main_function eq_refl).
Defined.

Lemma nBasicBlocks_positive_witness :
  forallb in_header [CallInsertBasicBlock 0x2000; CallEraseBasicBlock 0x2000] = true
  ∧ nBasicBlocks main_function = 1%nat
  ∧ (1 <= nBasicBlocks
            (run [CallInsertBasicBlock 0x2000; CallEraseBasicBlock 0x2000] main_function).2)%nat.
Proof.
  split; [reflexivity|].
  exact (@nBasicBlocks_positive unit unit unit tt tt 0x1000 "main" 0
           [CallInsertBasicBlock 0x2000; CallEraseBasicBlock 0x2000] eq_refl).
Defined.

Lemma cached_noop_outlives_no_change_witness :
  forallb (fun c => in_header c && negb (stores_noop c))
    [CallName "start"; CallInsertBasicBlock 0x1000; CallInsertReasons 4] = true
  ∧ isNoop (run [CallName "start"; CallInsertBasicBlock 0x1000; CallInsertReasons 4]
              analysed_function).2 = Some true
  ∧ isNoop analysed_function = Some true
  ∧ basicBlockAddresses
      (run [CallName "start"; CallInsertBasicBlock 0x1000; CallInsertReasons 4]
         analysed_function).2
    = basicBlockAddresses analysed_function.
Proof.
  assert (isNoop (run [CallName "start"; CallInsertBasicBlock 0x1000; CallInsertReasons 4]
                    analysed_function).2 = Some true) as Hend by (vm_compute; reflexivity).
  split; [reflexivity|]. split; [exact Hend|].
  exact (cached_noop_outlives_no_change
           [CallName "start"; CallInsertBasicBlock 0x1000; CallInsertReasons 4]
           analysed_function true eq_refl Hend).
Defined.

Lemma frozen_sequence_witness :
  isFrozen frozen_function = true
  ∧ forallb (fun c => in_header c && negb (is_thaw c))
      [CallName "start"; CallInsertBasicBlock 0x2000; CallComment "unreached"] = true
  ∧ aborted (run [CallName "start"; CallInsertBasicBlock 0x2000; CallComment "unreached"]
               frozen_function).1 = true
  ∧ basicBlockAddresses
      (run [CallName "start"; CallInsertBasicBlock 0x2000; CallComment "unreached"]
         frozen_function).2
    = basicBlockAddresses frozen_function.
Proof.
  split; [reflexivity|]. split; [reflexivity|].
  destruct (frozen_sequence
              [CallName "start"; CallInsertBasicBlock 0x2000; CallComment "unreached"]
              frozen_function eq_refl eq_refl) as (Habort & _ & Hblocks).
  split; [exact Habort|exact Hblocks].
Defined.

Lemma reasons_insert_erase_algebra_witness :
  reasons tagged_function < 2 ^ 32
  ∧ 4 < 2 ^ 32
  ∧ reasons (eraseReasons 4 tagged_function).2 = 1
  ∧ reasons (eraseReasons 4 (insertReasons 4 tagged_function).2).2
    = reasons (eraseReasons 4 tagged_function).2.
Proof.
  split; [reflexivity|]. split; [reflexivity|].
  destruct (reasons_insert_erase_algebra tagged_function 4 eq_refl eq_refl)
    as (Hdiff & Hcancel & _).
  split; [exact Hdiff|exact Hcancel].
Defined.

Lemma reasons_stay_32_bit_witness :
  reasons tagged_function < 2 ^ 32
  ∧ forallb (fun c => in_header c && reasons_fit c)
      [CallInsertReasons 0xFFFFFFFF; CallEraseReasons 1; CallReasons 7] = true
  ∧ reasons (run [CallInsertReasons 0xFFFFFFFF; CallEraseReasons 1; CallReasons 7]
               tagged_function).2 < 2 ^ 32.
Proof.
  split; [reflexivity|]. split; [reflexivity|].
  exact (reasons_stay_32_bit [CallInsertReasons 0xFFFFFFFF; CallEraseReasons 1; CallReasons 7]
           tagged_function eq_refl eq_refl).
Defined.

Lemma search_flags_independent_witness :
  SEARCH_DEADEND ∈ search_flags
  ∧ SEARCH_FOLLOWING ∈ search_flags
  ∧ SEARCH_DEADEND ≠ SEARCH_FOLLOWING
  ∧ has_bits (get_search (set_search (N.lor (get_search (engine SEARCH_DEFAULT)) SEARCH_DEADEND)
                            (engine SEARCH_DEFAULT))) SEARCH_DEADEND = true
  ∧ has_bits (get_search (set_search (N.lor (get_search (engine SEARCH_DEFAULT)) SEARCH_DEADEND)
                            (engine SEARCH_DEFAULT))) SEARCH_FOLLOWING
    = has_bits (get_search (engine SEARCH_DEFAULT)) SEARCH_FOLLOWING.
Proof.
  assert (SEARCH_DEADEND ∈ search_flags) as Hf.
  { unfold search_flags. do 6 apply list_elem_of_further. apply list_elem_of_here. }
  assert (SEARCH_FOLLOWING ∈ search_flags) as Hg by apply list_elem_of_here.
  assert (SEARCH_DEADEND ≠ SEARCH_FOLLOWING) as Hne by discriminate.
  split; [exact Hf|]. split; [exact Hg|]. split; [exact Hne|].
  destruct (search_flags_independent (engine SEARCH_DEFAULT) SEARCH_DEADEND SEARCH_FOLLOWING
              Hf Hg Hne) as (_ & Hon & Hother & _).
  split; [exact Hon|exact Hother].
Defined.

Lemma blocks_change_only_by_calls_witness :
  forallb in_header [CallInsertBasicBlock 0x2000; CallName "start"; CallEraseBasicBlock 0x3000]
  = true
  ∧ 0x2000 ∈ basicBlockAddresses
               (run [CallInsertBasicBlock 0x2000; CallName "start"; CallEraseBasicBlock 0x3000]
                  main_function).2
  ∧ (0x2000 ∈ basicBlockAddresses main_function
     ∨ CallInsertBasicBlock 0x2000
       ∈ [CallInsertBasicBlock 0x2000; CallName "start"; CallEraseBasicBlock 0x3000]).
Proof.
  assert (0x2000 ∈ basicBlockAddresses
                     (run [CallInsertBasicBlock 0x2000; CallName "start";
                           CallEraseBasicBlock 0x3000] main_function).2) as Hin.
  { apply (bool_decide_eq_true_1 _). vm_compute. reflexivity. }
  split; [reflexivity|]. split; [exact Hin|].
  destruct (blocks_change_only_by_calls
              [CallInsertBasicBlock 0x2000; CallName "start"; CallEraseBasicBlock 0x3000]
              main_function 0x2000 eq_refl) as [Hnew _].
  exact (Hnew Hin).
Defined.

Lemma freeze_setters_thaw_witness :
  isFrozen analysed_function = false
  ∧ forallb is_setter [CallName "start"; CallInsertReasons 4; CallIsNoopStore false] = true
  ∧ run (CallFreeze :: [CallName "start"; CallInsertReasons 4; CallIsNoopStore false]
           ++ [CallThaw]) analysed_function
    = run [CallName "start"; CallInsertReasons 4; CallIsNoopStore false] analysed_function.
Proof.
  split; [reflexivity|]. split; [reflexivity|].
  exact (freeze_setters_thaw [CallName "start"; CallInsertReasons 4; CallIsNoopStore false]
           analysed_function eq_refl eq_refl).
Defined.
